(** * vector-memory: the save / recall tools of [vector_memory.py]

    A shallow embedding of the two tools of the server, [save_to_memory] and
    [recall_from_memory], together with the part of their surroundings they
    talk to: the Redis database behind the index, the file system, the
    document loaders, the text splitter and the vector store.

    The code of the repository is embedded as executable definitions; what
    belongs to third-party libraries (langchain, redis-py, the operating
    system) is either a field of the record [Env] or, for the Redis commands
    the dedup loop issues, a small in-memory model of the command. *)

From Stdlib Require Import ZArith Ascii String.
From stdpp Require Import gmap strings list fin_maps pretty.

Open Scope string_scope.
Open Scope list_scope.

(** ** Python values *)

(** The result of evaluating a Python expression: a value, or an exception,
    kept as the text [str(e)] that the code interpolates into its messages. *)
Inductive outcome (A : Type) : Type :=
  | Return (a : A)
  | Raise (e : string).
Arguments Return {A} a.
Arguments Raise {A} e.

#[global] Instance outcome_eq_dec `{EqDecision A} : EqDecision (outcome A).
Proof. solve_decision. Defined.

#[global] Instance outcome_ret : MRet outcome := fun _ a => Return a.
#[global] Instance outcome_bind : MBind outcome := fun _ _ f m =>
  match m with
  | Return a => f a
  | Raise e => Raise e
  end.

(** A metadata value.  The code only ever distinguishes a [str] (compared
    with [==] against a path, interpolated as itself) from anything else
    (never equal to a path, interpolated through [str()]). *)
Inductive pyval : Type :=
  | VStr (s : string)
  | VOther (shown : string).

#[global] Instance pyval_eq_dec : EqDecision pyval.
Proof. solve_decision. Defined.

(** [str(v)], as an f-string renders a value. *)
Definition py_str (v : pyval) : string :=
  match v with
  | VStr s => s
  | VOther shown => shown
  end.

(** [langchain.schema.Document]. *)
Record Document : Type := mkDocument {
  page_content : string;
  metadata : gmap string pyval
}.

(** What [json.loads] hands back: a dict, or a value without [.get]. *)
Inductive pyjson : Type :=
  | JDict (d : gmap string pyval)
  | JOther.

(** ** Redis *)

(** A value stored under a Redis key: a hash (field to bytes), or a value of
    another type, on which HGETALL answers WRONGTYPE. *)
Inductive rvalue : Type :=
  | RHash (fields : gmap string string)
  | RString (v : string).

#[global] Instance rvalue_eq_dec : EqDecision rvalue.
Proof. solve_decision. Defined.

(** The server as one call sees it: the key space, and for each command
    still to come whether the connection fails on it ([true]: the command
    raises and has no effect; an exhausted schedule means no more failures). *)
Record redis : Type := mkRedis {
  db : gmap string rvalue;
  faults : list bool
}.

(** ** The environment of a call *)

Record Env : Type := mkEnv {
  (** [os.path.abspath], for the working directory of the process *)
  abspath : string → string;
  (** [os.path.exists] *)
  path_exists : string → bool;
  (** [TextLoader(p, encoding="utf-8").load()] *)
  text_loader : string → outcome (list Document);
  (** [PyPDFLoader(p).load()] *)
  pdf_loader : string → outcome (list Document);
  (** the constructor [RecursiveCharacterTextSplitter(chunk_size, chunk_overlap)] *)
  splitter_init : Z → Z → outcome unit;
  (** [splitter.split_documents] of the splitter built from the two sizes *)
  split_documents : Z → Z → list Document → outcome (list Document);
  (** [bytes.decode('utf-8')] *)
  decode_utf8 : string → outcome string;
  (** [json.loads] *)
  json_loads : string → outcome pyjson;
  (** the hash the vector store lays out for one chunk (content, embedding
      and metadata); raises when the embedding fails *)
  index_entry : Document → outcome (gmap string string);
  (** [vector_store.similarity_search(query, k=k)] over the key space *)
  similarity_search : string → Z → gmap string rvalue → outcome (list Document)
}.

(** ** Constants *)

Definition REDIS_URL : string := "redis://localhost:6379".
Definition INDEX_NAME : string := "doc_chunks".
Definition MODEL_NAME : string := "sentence-transformers/all-MiniLM-L6-v2".

(** The vector store keeps each chunk under [INDEX_NAME:<id>]. *)
Definition KEY_PREFIX : string := INDEX_NAME +:+ ":".

(** ** State and exceptions *)

(** A computation on the Redis server that may raise. *)
Definition M (A : Type) : Type := redis → outcome A * redis.

Definition ret {A} (a : A) : M A := fun st => (Return a, st).

Definition bind {A B} (m : M A) (f : A → M B) : M B := fun st =>
  match m st with
  | (Return a, st') => f a st'
  | (Raise e, st') => (Raise e, st')
  end.

Notation "x <- c1 ;; c2" := (bind c1 (fun x => c2))
  (at level 100, c1 at next level, right associativity).

(** A pure step that may raise, inside a computation. *)
Definition lift {A} (o : outcome A) : M A := fun st => (o, st).

(** [try: m  except Exception: pass] *)
Definition swallow {A} (m : M A) : M unit := fun st => (Return tt, (m st).2).

(** The next entry of the failure schedule. *)
Definition pop_fault (st : redis) : bool * redis :=
  match faults st with
  | [] => (false, st)
  | b :: rest => (b, mkRedis (db st) rest)
  end.

(** One round trip to the server: raises when the schedule says so. *)
Definition command {A} (run : gmap string rvalue → outcome A * gmap string rvalue) : M A :=
  fun st =>
    let (fails, st') := pop_fault st in
    if fails then (Raise "Error connecting to Redis", st')
    else let (r, d) := run (db st') in (r, mkRedis d (faults st')).

(** ** Redis commands *)

(** Glob matching as KEYS does it, for patterns of literal characters and
    [*]; the one pattern of the code has no other special character. *)
Fixpoint glob_match (pattern s : string) : bool :=
  match pattern with
  | EmptyString => match s with EmptyString => true | _ => false end
  | String c pattern' =>
      if Ascii.eqb c "*"%char then
        (fix star (s : string) : bool :=
           glob_match pattern' s ||
           match s with
           | EmptyString => false
           | String _ s' => star s'
           end) s
      else
        match s with
        | EmptyString => false
        | String d s' => Ascii.eqb c d && glob_match pattern' s'
        end
  end.

(** KEYS pattern *)
Definition redis_keys (pattern : string) : M (list string) :=
  command (fun d => (Return (filter (λ k, glob_match pattern k = true) (map_to_list d).*1), d)).

(** HGETALL key: the fields of the hash, the empty dict for an absent key *)
Definition redis_hgetall (key : string) : M (gmap string string) :=
  command (fun d =>
    match d !! key with
    | None => (Return ∅, d)
    | Some (RHash fields) => (Return fields, d)
    | Some (RString _) =>
        (Raise "WRONGTYPE Operation against a key holding the wrong kind of value", d)
    end).

(** DEL key [key ...] *)
Definition redis_delete (keys : list string) : M unit :=
  command (fun d => (Return tt, foldr delete d keys)).

(** ** Paths *)

Definition nl : string := String (ascii_of_nat 10) EmptyString.

(** [p.rfind(c)]: the index of the last occurrence of [c], [-1] if none. *)
Fixpoint rfind_from (c : ascii) (p : string) (i last : Z) : Z :=
  match p with
  | EmptyString => last
  | String a p' => rfind_from c p' (i + 1) (if Ascii.eqb a c then i else last)
  end.

Definition rfind (c : ascii) (p : string) : Z := rfind_from c p 0 (-1).

(** The loop of [genericpath._splitext] over [p[sepIndex+1:dotIndex]]: it
    returns the split at the first character that is not a dot. *)
Fixpoint skip_leading_dots (seg : string) : bool :=
  match seg with
  | EmptyString => false
  | String a seg' => if Ascii.eqb a "."%char then skip_leading_dots seg' else true
  end.

(** [os.path.splitext] (POSIX) *)
Definition splitext (p : string) : string * string :=
  let sepIndex := rfind "/"%char p in
  let dotIndex := rfind "."%char p in
  if (sepIndex <? dotIndex)%Z then
    let filenameIndex := Z.to_nat (sepIndex + 1) in
    if skip_leading_dots (substring filenameIndex (Z.to_nat dotIndex - filenameIndex) p)
    then (substring 0 (Z.to_nat dotIndex) p,
          substring (Z.to_nat dotIndex) (String.length p - Z.to_nat dotIndex) p)
    else (p, "")
  else (p, "").

(** [str.lower] on the ASCII letters. *)
Definition lower_ascii (a : ascii) : ascii :=
  let n := nat_of_ascii a in
  if (65 <=? n)%nat && (n <=? 90)%nat then ascii_of_nat (n + 32) else a.

Fixpoint lower (s : string) : string :=
  match s with
  | EmptyString => EmptyString
  | String a s' => String (lower_ascii a) (lower s')
  end.

(** ** save_to_memory: the dedup loop (lines 58-85) *)

(** Lines 71-79: the source path a stored hash carries, read through the
    two layouts the loop knows; [None] when the hash has neither field (or
    its metadata has no [source_file]). *)
Definition stored_path (E : Env) (doc_data : gmap string string) : outcome (option pyval) :=
  match doc_data !! "source_file" with
  | Some raw =>
      stored ← decode_utf8 E raw;
      mret (Some (VStr stored))
  | None =>
      match doc_data !! "_metadata_json" with
      | Some raw =>
          metadata_str ← decode_utf8 E raw;
          parsed ← json_loads E metadata_str;
          match parsed with
          | JDict d => mret (d !! "source_file")
          | JOther => Raise "object has no attribute 'get'"
          end
      | None => mret None
      end
  end.

(** The comparison [== abs_path] of both branches. *)
Definition is_path (abs_path : string) (stored : option pyval) : bool :=
  bool_decide (stored = Some (VStr abs_path)).

(** Lines 68-79: the scan that collects [keys_to_delete]. *)
Fixpoint scan_keys (E : Env) (abs_path : string) (keys keys_to_delete : list string)
  : M (list string) :=
  match keys with
  | [] => ret keys_to_delete
  | key :: rest =>
      doc_data <- redis_hgetall key ;;
      stored <- lift (stored_path E doc_data) ;;
      scan_keys E abs_path rest
        (if is_path abs_path stored then keys_to_delete ++ [key] else keys_to_delete)
  end.

(** Lines 64-82: the body of the [try]. *)
Definition dedup_one (E : Env) (abs_path : string) : M unit :=
  let pattern := INDEX_NAME +:+ ":*" in
  keys <- redis_keys pattern ;;
  keys_to_delete <- scan_keys E abs_path keys [] ;;
  match keys_to_delete with
  | [] => ret tt
  | _ => redis_delete keys_to_delete
  end.

(** Lines 59-85: one guarded body per listed path.  (Line 59 only builds the
    client, which connects on its first command.) *)
Fixpoint dedup_pass (E : Env) (file_paths : list string) : M unit :=
  match file_paths with
  | [] => ret tt
  | file_path :: rest =>
      let abs_path := abspath E file_path in
      _ <- swallow (dedup_one E abs_path) ;;
      dedup_pass E rest
  end.

(** ** save_to_memory: the load loop (lines 88-116) *)

(** Line 112: [chunk.metadata["source_file"] = abs_path] *)
Definition set_source_file (abs_path : string) (chunk : Document) : Document :=
  mkDocument (page_content chunk) (<["source_file" := VStr abs_path]> (metadata chunk)).

(** Lines 96-114: the body of the [try], giving the chunks that
    [docs.extend] appends. *)
Definition load_chunks (E : Env) (chunk_size chunk_overlap : Z) (abs_path : string)
  : outcome (list Document) :=
  let ext := lower (splitext abs_path).2 in
  let loader := if String.eqb ext ".pdf" then pdf_loader E else text_loader E in
  file_docs ← loader abs_path;
  chunks ← split_documents E chunk_size chunk_overlap file_docs;
  mret (map (set_source_file abs_path) chunks).

(** Lines 88-116.  [inl msg] is a [return msg] from inside the loop, [inr docs]
    the list [docs] when the loop runs to its end. *)
Fixpoint load_pass (E : Env) (chunk_size chunk_overlap : Z)
    (file_paths : list string) (docs : list Document) : string + list Document :=
  match file_paths with
  | [] => inr docs
  | file_path :: rest =>
      let abs_path := abspath E file_path in
      if negb (path_exists E abs_path) then
        inl ("Error: File not found: " +:+ abs_path)
      else
        match load_chunks E chunk_size chunk_overlap abs_path with
        | Return chunks => load_pass E chunk_size chunk_overlap rest (docs ++ chunks)
        | Raise e => inl ("Error processing " +:+ abs_path +:+ ": " +:+ e)
        end
  end.

(** ** The vector store *)

(** [strip_prefix p s]: what follows [p] in [s], when [s] starts with [p]. *)
Fixpoint strip_prefix (p s : string) : option string :=
  match p with
  | EmptyString => Some s
  | String a p' =>
      match s with
      | EmptyString => None
      | String b s' => if Ascii.eqb a b then strip_prefix p' s' else None
      end
  end.

(** The ids in use under the index prefix. *)
Definition index_ids (d : gmap string rvalue) : gset string :=
  list_to_set (omap (strip_prefix KEY_PREFIX) (map_to_list d).*1).

(** A key for a new entry: the prefix and an id not in use at the time of
    writing (the store draws a ULID). *)
Definition new_key (d : gmap string rvalue) : string :=
  KEY_PREFIX +:+ fresh (index_ids d).

Fixpoint index_entries (E : Env) (docs : list Document) : outcome (list (gmap string string)) :=
  match docs with
  | [] => mret []
  | doc :: rest =>
      h ← index_entry E doc;
      hs ← index_entries E rest;
      mret (h :: hs)
  end.

Fixpoint write_entries (hs : list (gmap string string)) (d : gmap string rvalue)
  : list string * gmap string rvalue :=
  match hs with
  | [] => ([], d)
  | h :: rest =>
      let key := new_key d in
      let (ids, d') := write_entries rest (<[key := RHash h]> d) in
      (key :: ids, d')
  end.

(** [vector_store.add_documents(docs)]: embeds and lays out every chunk,
    then stores them under new keys in one batch; returns the keys. A batch
    that fails is taken to have written nothing: the library may in fact
    have written a part of it, and nothing below is stated of the keys a
    failed insertion leaves. *)
Definition add_documents (E : Env) (docs : list Document) : M (list string) :=
  hs <- lift (index_entries E docs) ;;
  command (fun d => let (ids, d') := write_entries hs d in (Return ids, d')).

(** ** save_to_memory *)

(** The first seven bytes of the confirmation, as the source file spells
    them. *)
Definition success_mark : string :=
  string_of_list_ascii (ascii_of_nat <$> [195; 162; 197; 147; 226; 128; 166]%nat).

Definition success_message (n : nat) : string :=
  success_mark +:+ " Successfully saved " +:+ pretty n
    +:+ " file(s) to memory. Content is now available for recall.".

Definition save_to_memory (E : Env) (file_paths : list string)
    (chunk_size chunk_overlap : Z) : M string :=
  (* lines 53-56 *)
  _ <- lift (splitter_init E chunk_size chunk_overlap) ;;
  (* lines 58-85 *)
  _ <- dedup_pass E file_paths ;;
  (* lines 87-116 *)
  match load_pass E chunk_size chunk_overlap file_paths [] with
  | inl msg => ret msg
  | inr docs =>
      (* lines 118-123 *)
      fun st =>
        match add_documents E docs st with
        | (Return ids, st') => (Return (success_message (length file_paths)), st')
        | (Raise e, st') => (Return ("Error saving to memory: " +:+ e), st')
        end
  end.

(** ** recall_from_memory *)

Definition nothing_found : string := "Nothing found in memory matching your query.".

(** Lines 150-154: one block of the output. *)
Definition format_result (i : nat) (doc : Document) : string :=
  let source_file := default (VStr "unknown") (metadata doc !! "source_file") in
  let content := page_content doc in
  "**Result " +:+ pretty i +:+ "**" +:+ nl +:+ "Source: " +:+ py_str source_file
    +:+ nl +:+ nl +:+ "Content:" +:+ nl +:+ content +:+ nl.

(** Lines 148-154: [for i, doc in enumerate(results, 1): output.append(...)] *)
Fixpoint render_results (i : nat) (results : list Document) (output : list string)
  : list string :=
  match results with
  | [] => output
  | doc :: rest => render_results (S i) rest (output ++ [format_result i doc])
  end.

Definition separator : string := nl +:+ "---" +:+ nl.

Definition recall_from_memory (E : Env) (query : string) (k : Z)
    (d : gmap string rvalue) : string :=
  match similarity_search E query k d with
  | Return results =>
      match results with
      | [] => nothing_found
      | _ => String.concat separator (render_results 1 results [])
      end
  | Raise e => "Error recalling from memory: " +:+ e
  end.

(** ** A concrete deployment

    One environment on which the definitions can be run: a working
    directory with four small files, the constructor check of langchain's
    splitter, a splitter that leaves short texts whole, and a vector store
    that lays metadata out as flat hash fields. *)
Module Scenario.

Definition cwd : string := "/home/agent/".

Definition abspath (p : string) : string :=
  match p with
  | String "/" _ => p
  | _ => cwd +:+ p
  end.

(** What a file holds: bytes that decode as UTF-8 text, or bytes that do
    not. *)
Inductive content : Type :=
  | Text (text : string)
  | Binary.

Definition files : gmap string content :=
  {[ "/home/agent/a.txt" := Text "Redis keeps the chunks of every saved note.";
     "/home/agent/b.txt" := Text "The splitter cuts long notes into pieces.";
     "/home/agent/image.png" := Text "not really a picture";
     "/home/agent/photo.png" := Binary ]}.

(** The same directory after [a.txt] has been rewritten. *)
Definition files_edited : gmap string content :=
  <["/home/agent/a.txt" := Text "Redis keeps one generation of chunks per note."]> files.

Definition text_loader (fs : gmap string content) (p : string) : outcome (list Document) :=
  match fs !! p with
  | Some (Text text) => Return [mkDocument text {[ "source" := VStr p ]}]
  | _ => Raise ("Error loading " +:+ p)
  end.

Definition pdf_loader (p : string) : outcome (list Document) :=
  Raise ("Invalid pdf header in " +:+ p).

Definition splitter_init (chunk_size chunk_overlap : Z) : outcome unit :=
  if (chunk_size <? chunk_overlap)%Z
  then Raise ("Got a larger chunk overlap (" +:+ pretty chunk_overlap
              +:+ ") than chunk size (" +:+ pretty chunk_size
              +:+ "), should be smaller.")
  else Return tt.

Definition split_documents (chunk_size chunk_overlap : Z) (docs : list Document)
  : outcome (list Document) :=
  Return (filter (λ doc, page_content doc ≠ "") docs).

Definition json_loads (s : string) : outcome pyjson :=
  if String.eqb s "[]" then Return JOther
  else Raise "Expecting value: line 1 column 1 (char 0)".

Definition index_entry (doc : Document) : outcome (gmap string string) :=
  Return (<["text" := page_content doc]> (py_str <$> metadata doc)).

Definition read_entry (v : rvalue) : option Document :=
  match v with
  | RHash fields =>
      text ← fields !! "text";
      Some (mkDocument text (VStr <$> delete "text" fields))
  | RString _ => None
  end.

Definition similarity_search (query : string) (k : Z) (d : gmap string rvalue)
  : outcome (list Document) :=
  if (k <? 1)%Z then Raise "k must be positive"
  else Return (take (Z.to_nat k) (omap read_entry (map_to_list d).*2)).

Definition env_of (fs : gmap string content) : Env :=
  mkEnv abspath (λ p, bool_decide (is_Some (fs !! p)))
        (text_loader fs) pdf_loader splitter_init split_documents
        Return json_loads index_entry similarity_search.

Definition env : Env := env_of files.
Definition env_edited : Env := env_of files_edited.

(** A server that answers every command. *)
Definition up (d : gmap string rvalue) : redis := mkRedis d [].

(** An index left by earlier saves: one chunk of [a.txt], one of [b.txt]. *)
Definition old_a : gmap string string :=
  {[ "text" := "An older version of the note.";
     "source_file" := "/home/agent/a.txt" ]}.

Definition old_b : gmap string string :=
  {[ "text" := "The splitter cuts long notes into pieces.";
     "source_file" := "/home/agent/b.txt" ]}.

Definition index0 : gmap string rvalue :=
  {[ "doc_chunks:01A" := RHash old_a; "doc_chunks:01B" := RHash old_b ]}.

(** The same index with a counter kept under the prefix of the index, and
    with a hash whose metadata is a JSON list. *)
Definition index_with_counter : gmap string rvalue :=
  <["doc_chunks:stats" := RString "42"]> index0.

Definition index_with_list : gmap string rvalue :=
  <["doc_chunks:01C" := RHash {[ "_metadata_json" := "[]" ]}]> index0.

(** An empty index behind a connection that fails on its third command:
    the two commands of a first save of [a.txt] pass, the KEYS of the next
    save does not. *)
Definition third_command_fails : redis := mkRedis ∅ [false; false; true].

Definition first_save : outcome string * redis :=
  save_to_memory env ["a.txt"] 1000 100 third_command_fails.

Definition second_save : outcome string * redis :=
  save_to_memory env ["a.txt"] 1000 100 first_save.2.

(** [index0] behind a connection that fails on its fourth command: the scan
    for a first listed path (KEYS, two HGETALL) passes, the KEYS for the
    second listed path does not. *)
Definition fourth_command_fails : redis := mkRedis index0 [false; false; false; true].

(** [a.txt] saved, rewritten, and saved again, on a server that answers. *)
Definition saved_once : redis :=
  (save_to_memory env ["a.txt"] 1000 100 (up index0)).2.

Definition saved_again : outcome string * redis :=
  save_to_memory env_edited ["a.txt"] 1000 100 saved_once.

End Scenario.

(** * Specification vocabulary *)

(** A key of the index: one that the scan of the dedup loop lists. *)
Definition index_key (k : string) : bool := glob_match (INDEX_NAME +:+ ":*") k.

(** The hash [fields] reads as a chunk of [abs_path]. *)
Definition reads_as (E : Env) (abs_path : string) (fields : gmap string string) : bool :=
  match stored_path E fields with
  | Return stored => is_path abs_path stored
  | Raise _ => false
  end.

(** What the scan decides for the key [k] of the key space [d]. *)
Definition hit (E : Env) (abs_path : string) (d : gmap string rvalue) (k : string) : bool :=
  match d !! k with
  | Some (RHash fields) => reads_as E abs_path fields
  | _ => false
  end.

(** [k] holds an Index Entry whose stored source path is [abs_path]. *)
Definition entry_of (E : Env) (abs_path : string) (k : string) (v : rvalue) : bool :=
  index_key k &&
  match v with
  | RHash fields => reads_as E abs_path fields
  | RString _ => false
  end.

Definition entries_of (E : Env) (abs_path : string) (d : gmap string rvalue)
  : gmap string rvalue :=
  filter (λ kv, entry_of E abs_path kv.1 kv.2 = true) d.

(** The number of Index Entries of [abs_path]. *)
Definition count_entries (E : Env) (abs_path : string) (d : gmap string rvalue) : nat :=
  size (entries_of E abs_path d).

(** The chunks that the load loop of a call collects. *)
Definition chunks_of (E : Env) (chunk_size chunk_overlap : Z) (file_paths : list string)
  : list Document :=
  match load_pass E chunk_size chunk_overlap file_paths [] with
  | inr docs => docs
  | inl _ => []
  end.

(** The chunks of one listed path. *)
Definition path_chunks (E : Env) (chunk_size chunk_overlap : Z) (file_path : string)
  : list Document :=
  match load_chunks E chunk_size chunk_overlap (abspath E file_path) with
  | Return chunks => chunks
  | Raise _ => []
  end.

(** The vector store lays [doc] out so that the scan reads its
    [source_file] back. *)
Definition readable (E : Env) (doc : Document) : Prop :=
  ∀ fields, index_entry E doc = Return fields →
            stored_path E fields = Return (metadata doc !! "source_file").

(** The load loop stops at [file_path]: the file is missing, or loading or
    splitting it raises. *)
Definition unloadable (E : Env) (chunk_size chunk_overlap : Z) (file_path : string) : Prop :=
  path_exists E (abspath E file_path) = false ∨
  ∃ e, load_chunks E chunk_size chunk_overlap (abspath E file_path) = Raise e.

(** The scan for the listed path [file_path] ran to its end, DEL included,
    without raising. *)
Definition scan_completed (E : Env) (file_paths : list string) (st : redis)
    (file_path : string) : Prop :=
  ∃ before after,
    file_paths = before ++ file_path :: after ∧
    (dedup_one E (abspath E file_path) (dedup_pass E before st).2).1 = Return tt.

(** The extension of [abs_path], lower-cased, is ".pdf". *)
Definition is_pdf (abs_path : string) : bool :=
  String.eqb (lower (splitext abs_path).2) ".pdf".

(** The content of [file_path] cannot be read, with the message [e]: the
    loader for its extension raises [e] on the canonical path, or returns
    documents on which the splitter raises [e]. *)
Definition read_error (E : Env) (chunk_size chunk_overlap : Z) (file_path e : string) : Prop :=
  let abs_path := abspath E file_path in
  let loader := if is_pdf abs_path then pdf_loader E else text_loader E in
  loader abs_path = Raise e ∨
  ∃ file_docs, loader abs_path = Return file_docs ∧
               split_documents E chunk_size chunk_overlap file_docs = Raise e.

(** [file_path] is missing, or its content cannot be read. *)
Definition fails_to_load (E : Env) (chunk_size chunk_overlap : Z) (file_path : string) : Prop :=
  path_exists E (abspath E file_path) = false ∨
  ∃ e, read_error E chunk_size chunk_overlap file_path e.

(** * test_connection.py: the checks run before the server is started *)

Module ConnectionTest.

(** What the checks meet on the machine they run on. An exception is kept
    as its message, as before. *)
Record Host : Type := mkHost {
  (** the components of an embedding *)
  component : Type;
  (** the four imports of [test_imports] *)
  import_server : outcome unit;
  (** [import redis], [redis.Redis.from_url(...)] and [r.ping()] *)
  ping : outcome bool;
  (** the import of [HuggingFaceEmbeddings] *)
  import_embeddings : outcome unit;
  (** the constructor of the model and [embeddings.embed_query("test")] *)
  embed_query : outcome (list component)
}.

(** A function that prints: its value and the strings it printed, one per
    call of [print]. *)
Definition printed (A : Type) : Type := A * list string.

(** Lines 10-25 *)
Definition test_redis (H : Host) : printed bool :=
  match ping H with
  | Return true => (true, ["✅ Redis connection: SUCCESS"])
  | Return false => (false, ["❌ Redis connection: FAILED"])
  | Raise e =>
      (false, ["❌ Redis connection: FAILED - " +:+ e;
               "   Make sure Redis is running: docker run -d -p 6379:6379 redis:latest"])
  end.

(** Lines 28-47 *)
Definition test_embeddings (H : Host) : printed bool :=
  match import_embeddings H with
  | Raise e => (false, ["❌ Embedding model: FAILED - " +:+ e])
  | Return _ =>
      let loading := "⏳ Loading embedding model (this may take a moment)..." in
      match embed_query H with
      | Raise e => (false, [loading; "❌ Embedding model: FAILED - " +:+ e])
      | Return test_embedding =>
          match test_embedding with
          | _ :: _ =>
              (true, [loading;
                      "✅ Embedding model: SUCCESS (dimension: "
                        +:+ pretty (length test_embedding) +:+ ")"])
          | [] => (false, [loading; "❌ Embedding model: FAILED"])
          end
      end
  end.

(** Lines 50-63 *)
Definition test_imports (H : Host) : printed bool :=
  match import_server H with
  | Return _ => (true, ["✅ All imports: SUCCESS"])
  | Raise e => (false, ["❌ Import failed: " +:+ e; "   Run: uv sync"])
  end.

(** ["=" * n] *)
Definition rule (n : nat) : string := string_of_list_ascii (replicate n "="%char).

(** [f"{name:20}"]: a string is set flush left in a field of the given
    width, and left as it is when it is longer. *)
Definition ljust (width : nat) (s : string) : string :=
  s +:+ string_of_list_ascii (replicate (width - String.length s) " "%char).

(** Lines 85-87: one line of the summary. *)
Definition summary_line (result : string * bool) : string :=
  let status := if result.2 then "✅ PASS" else "❌ FAIL" in
  ljust 20 result.1 +:+ " " +:+ status.

(** Lines 66-98: what [main] prints, and the status it exits with. *)
Definition main (H : Host) : list string * Z :=
  let '(imports, out_imports) := test_imports H in
  let '(redis, out_redis) := test_redis H in
  let '(embeddings, out_embeddings) := test_embeddings H in
  let results := [("Imports", imports); ("Redis", redis); ("Embeddings", embeddings)] in
  let all_passed := forallb snd results in
  ([rule 50; "Vector Memory MCP Server - Connection Test"; rule 50; ""]
   ++ out_imports ++ out_redis ++ out_embeddings
   ++ [""; rule 50; "Test Summary"; rule 50]
   ++ map summary_line results
   ++ [""]
   ++ (if all_passed
       then ["🎉 All tests passed! Your server is ready to run.";
             "   Start it with: uv run vector_memory.py"]
       else ["⚠️  Some tests failed. Please fix the issues above before running the server."]),
   if all_passed then 0%Z else 1%Z).

End ConnectionTest.

(** * validate_server_json.py: the check of server.json *)

Module ServerJson.

(** What [json.load] builds. A [str] is kept as the bytes of its UTF-8
    form, an [int] exactly; of a [float] only what the code can observe is
    kept: whether it is zero, and its [str()]. The members of an object are
    the items of the dict, in order, each key once. *)
#[warnings="-register-all"]
Inductive json : Type :=
  | JNull
  | JBool (b : bool)
  | JInt (n : Z)
  | JFloat (zero : bool) (shown : string)
  | JString (s : string)
  | JArray (items : list json)
  | JObject (members : list (string * json)).

(** What lines 15-16 meet: the parsed file, or an exception. *)
Inductive loaded : Type :=
  | Loaded (server_data : json)
  | JSONDecodeError (e : string)
  | FileNotFoundError
  | OtherError (e : string).

Record Host : Type := mkHost {
  (** [open('server.json', 'r')] and [json.load(f)] *)
  server_json : loaded;
  (** [str()] of a list or of a dict *)
  container_str : json → string
}.

(** A computation that prints and may raise: the strings printed so far are
    threaded through, one per call of [print], and survive an exception. *)
Definition W (A : Type) : Type := list string → outcome A * list string.

Definition wret {A} (a : A) : W A := fun out => (Return a, out).

Definition wbind {A B} (m : W A) (f : A → W B) : W B := fun out =>
  match m out with
  | (Return a, out') => f a out'
  | (Raise e, out') => (Raise e, out')
  end.

Notation "x <~ c1 ;; c2" := (wbind c1 (fun x => c2))
  (at level 100, c1 at next level, right associativity).

Definition wlift {A} (o : outcome A) : W A := fun out => (o, out).

Definition print (s : string) : W unit := fun out => (Return tt, out ++ [s]).

(** ** Python on parsed values *)

(** [str(v)] *)
Definition str (H : Host) (v : json) : string :=
  match v with
  | JNull => "None"
  | JBool true => "True"
  | JBool false => "False"
  | JInt n => pretty n
  | JFloat _ shown => shown
  | JString s => s
  | JArray _ | JObject _ => container_str H v
  end.

(** [bool(v)] *)
Definition truthy (v : json) : bool :=
  match v with
  | JNull => false
  | JBool b => b
  | JInt n => negb (n =? 0)%Z
  | JFloat zero _ => negb zero
  | JString s => negb (String.eqb s "")
  | JArray items => match items with [] => false | _ => true end
  | JObject members => match members with [] => false | _ => true end
  end.

(** [v == s] for a [str] [s] *)
Definition is_str (s : string) (v : json) : bool :=
  match v with
  | JString s' => String.eqb s' s
  | _ => false
  end.

(** [needle in s] on two [str] *)
Fixpoint occurs (needle s : string) : bool :=
  String.prefix needle s ||
  match s with
  | EmptyString => false
  | String _ s' => occurs needle s'
  end.

(** [d[key]] on the items of a dict, when the key is there *)
Fixpoint dict_get (members : list (string * json)) (key : string) : option json :=
  match members with
  | [] => None
  | (k, v) :: rest => if String.eqb k key then Some v else dict_get rest key
  end.

(** [field in data] *)
Definition contains (data : json) (field : string) : outcome bool :=
  match data with
  | JObject members => Return (bool_decide (is_Some (dict_get members field)))
  | JArray items => Return (existsb (is_str field) items)
  | JString s => Return (occurs field s)
  | JNull | JBool _ | JInt _ | JFloat _ _ => Raise "TypeError"
  end.

(** [d.get(key, default)] *)
Definition get (d : json) (key : string) (default : json) : outcome json :=
  match d with
  | JObject members => Return (from_option id default (dict_get members key))
  | _ => Raise "AttributeError"
  end.

(** [v.startswith(prefix)] *)
Definition startswith (v : json) (prefix : string) : outcome bool :=
  match v with
  | JString s => Return (String.prefix prefix s)
  | _ => Raise "AttributeError"
  end.

(** The code points of a [str]: a byte [10xxxxxx] continues the code point
    of the byte before it. *)
Definition continues (a : ascii) : bool :=
  let n := nat_of_ascii a in (128 <=? n)%nat && (n <? 192)%nat.

Definition continued (s : string) : bool :=
  match s with
  | String b _ => continues b
  | EmptyString => false
  end.

Fixpoint code_points (s : string) : list string :=
  match s with
  | EmptyString => []
  | String a s' =>
      let rest := code_points s' in
      if continued s' then
        match rest with
        | cp :: rest' => String a cp :: rest'
        | [] => [String a ""]
        end
      else String a "" :: rest
  end.

(** [len(v)] *)
Definition len (v : json) : outcome nat :=
  match v with
  | JString s => Return (length (code_points s))
  | JArray items => Return (length items)
  | JObject members => Return (length members)
  | JNull | JBool _ | JInt _ | JFloat _ _ => Raise "TypeError"
  end.

(** What [for ... in v] runs over, for a value that has a [len]. *)
Definition iterated (v : json) : list json :=
  match v with
  | JString s => JString <$> code_points s
  | JArray items => items
  | JObject members => JString <$> members.*1
  | _ => []
  end.

(** The characters of a value that is a [str]. *)
Definition text (v : json) : string :=
  match v with
  | JString s => s
  | _ => ""
  end.

(** [s.split(sep)[0]]: what stands before the first [sep]. *)
Fixpoint split_first (sep : ascii) (s : string) : string :=
  match s with
  | EmptyString => EmptyString
  | String a s' => if Ascii.eqb a sep then EmptyString else String a (split_first sep s')
  end.

(** [s.replace(old, new)] for a non-empty [old]: the occurrences of [old]
    are replaced from the left, none overlapping another. [skip] counts the
    characters of an occurrence still to pass over. *)
Fixpoint replace_from (old new : string) (skip : nat) (s : string) : string :=
  match s with
  | EmptyString => EmptyString
  | String a s' =>
      match skip with
      | S skip' => replace_from old new skip' s'
      | O =>
          if String.prefix old s
          then new +:+ replace_from old new (String.length old - 1) s'
          else String a (replace_from old new 0 s')
      end
  end.

Definition replace (old new s : string) : string := replace_from old new 0 s.

(** ** validate_server_json *)

Definition required_fields : list string := ["$schema"; "name"; "description"; "version"].

(** Line 27: the fields that are not in the data, in the order of
    [required_fields]. *)
Fixpoint missing (server_data : json) (fields : list string) : outcome (list string) :=
  match fields with
  | [] => Return []
  | field :: rest =>
      match contains server_data field with
      | Raise e => Raise e
      | Return present =>
          match missing server_data rest with
          | Raise e => Raise e
          | Return others => Return (if present : bool then others else field :: others)
          end
      end
  end.

(** Line 40 *)
Definition username (name : string) : string :=
  replace "io.github." "" (split_first "/" name).

(** Lines 51-63: the body of the loop over the packages. *)
Definition print_package (H : Host) (name : json) (i : nat) (pkg : json) : W unit :=
  _ <~ print (nl +:+ "  Package " +:+ pretty (i + 1) +:+ ":") ;;
  registry <~ wlift (get pkg "registryType" (JString "N/A")) ;;
  _ <~ print ("    Registry: " +:+ str H registry) ;;
  identifier <~ wlift (get pkg "identifier" (JString "N/A")) ;;
  _ <~ print ("    Identifier: " +:+ str H identifier) ;;
  version <~ wlift (get pkg "version" (JString "N/A")) ;;
  _ <~ print ("    Version: " +:+ str H version) ;;
  transport <~ wlift (get pkg "transport" (JObject [])) ;;
  transport_type <~ wlift (get transport "type" (JString "N/A")) ;;
  _ <~ print ("    Transport: " +:+ str H transport_type) ;;
  registry <~ wlift (get pkg "registryType" JNull) ;;
  if is_str "pypi" registry then
    identifier <~ wlift (get pkg "identifier" JNull) ;;
    _ <~ print (nl +:+ "    📝 PyPI Validation Requirements:") ;;
    _ <~ print ("       1. Package '" +:+ str H identifier +:+ "' must be published to PyPI") ;;
    _ <~ print ("       2. README must contain: mcp-name: " +:+ str H name) ;;
    print "       3. Check README.md has the mcp-name comment"
  else wret tt.

(** Line 50: [for i, pkg in enumerate(packages)] *)
Fixpoint print_packages (H : Host) (name : json) (i : nat) (packages : list json) : W unit :=
  match packages with
  | [] => wret tt
  | pkg :: rest =>
      _ <~ print_package H name i pkg ;;
      print_packages H name (S i) rest
  end.

(** ["=" * n] *)
Definition rule (n : nat) : string := string_of_list_ascii (replicate n "="%char).

(** Lines 72-88 *)
Definition print_summary (H : Host) (server_data name : json) : W bool :=
  _ <~ print (nl +:+ rule 80) ;;
  _ <~ print "📋 VALIDATION SUMMARY" ;;
  _ <~ print (rule 80) ;;
  v <~ wlift (get server_data "name" JNull) ;;
  _ <~ print ("Server Name: " +:+ str H v) ;;
  v <~ wlift (get server_data "version" JNull) ;;
  _ <~ print ("Version: " +:+ str H v) ;;
  v <~ wlift (get server_data "description" JNull) ;;
  _ <~ print ("Description: " +:+ str H v) ;;
  v <~ wlift (get server_data "license" (JString "Not specified")) ;;
  _ <~ print ("License: " +:+ str H v) ;;
  v <~ wlift (get server_data "homepage" (JString "Not specified")) ;;
  _ <~ print ("Homepage: " +:+ str H v) ;;
  _ <~ print (nl +:+ "✅ server.json structure is valid!") ;;
  _ <~ print (nl +:+ "📚 Next Steps:") ;;
  _ <~ print ("  1. Ensure README.md contains: <!-- mcp-name: " +:+ str H name +:+ " -->") ;;
  _ <~ print "  2. Publish package to PyPI first" ;;
  v <~ wlift (get server_data "version" JNull) ;;
  _ <~ print ("  3. Create a version tag: git tag vector-memory-v" +:+ str H v) ;;
  v <~ wlift (get server_data "version" JNull) ;;
  _ <~ print ("  4. Push tag: git push origin vector-memory-v" +:+ str H v) ;;
  _ <~ print "  5. GitHub Actions will automatically publish to MCP Registry" ;;
  wret true.

(** Lines 25-88: the checks on the parsed data. *)
Definition run_checks (H : Host) (server_data : json) : W bool :=
  missing_fields <~ wlift (missing server_data required_fields) ;;
  match missing_fields with
  | _ :: _ =>
      _ <~ print ("❌ Missing required fields: " +:+ String.concat ", " missing_fields) ;;
      wret false
  | [] =>
      _ <~ print "✅ All required fields present" ;;
      (* lines 35-41 *)
      name <~ wlift (get server_data "name" (JString "")) ;;
      github <~ wlift (startswith name "io.github.") ;;
      _ <~ (if github
            then print ("✅ Name uses GitHub namespace: " +:+ username (text name))
            else print ("⚠️  Warning: name '" +:+ str H name
                        +:+ "' doesn't use io.github.* namespace")) ;;
      (* lines 43-63 *)
      packages <~ wlift (get server_data "packages" (JArray [])) ;;
      _ <~ (if truthy packages
            then
              n <~ wlift (len packages) ;;
              _ <~ print ("✅ " +:+ pretty n +:+ " package(s) defined") ;;
              print_packages H name 0 (iterated packages)
            else print "⚠️  Warning: No packages defined") ;;
      (* lines 65-70 *)
      schema_url <~ wlift (get server_data "$schema" (JString "")) ;;
      valid <~ wlift (startswith schema_url "https://static.modelcontextprotocol.io/schemas/") ;;
      _ <~ (if valid
            then print (nl +:+ "✅ Valid schema URL: " +:+ str H schema_url)
            else print (nl +:+ "⚠️  Unexpected schema URL: " +:+ str H schema_url)) ;;
      print_summary H server_data name
  end.

(** Lines 10-88 *)
Definition validate_server_json (H : Host) : W bool :=
  match server_json H with
  | Loaded server_data =>
      _ <~ print "✅ server.json is valid JSON" ;;
      run_checks H server_data
  | JSONDecodeError e =>
      _ <~ print ("❌ Invalid JSON in server.json: " +:+ e) ;;
      wret false
  | FileNotFoundError =>
      _ <~ print "❌ server.json not found" ;;
      wret false
  | OtherError e => wlift (Raise e)
  end.


(** ** Vocabulary *)




(** The values [in] works on: a dict, a list, a str. *)
Definition container (v : json) : bool :=
  match v with
  | JObject _ | JArray _ | JString _ => true
  | _ => false
  end.

(** The required fields that are not in the data. *)
Definition lacking (server_data : json) : list string :=
  filter (λ field, contains server_data field = Return false) required_fields.

End ServerJson.

(** * Lemmas on the model *)

(** Unfolds the sequencing of steps that may raise. *)
Ltac step_outcome := cbv [mbind mret outcome_bind outcome_ret] in *.

(** Checks a concrete list of chunks against [readable] by evaluation. *)
Ltac check_readable :=
  match goal with
  | |- Forall _ ?docs =>
      let l := eval vm_compute in docs in
      change docs with l;
      repeat (apply Forall_cons; split;
              [let fields := fresh "fields" in
               let Hfields := fresh "Hfields" in
               intros fields Hfields; vm_compute in Hfields;
               injection Hfields as <-; vm_compute; reflexivity |]);
      try apply Forall_nil_2
  end.

Section Commands.
Context {A : Type} (run : gmap string rvalue → outcome A * gmap string rvalue).

Lemma command_fault d rest :
  command run (mkRedis d (true :: rest))
  = (Raise "Error connecting to Redis", mkRedis d rest).
Proof. reflexivity. Qed.

Lemma command_ok d rest :
  command run (mkRedis d (false :: rest)) = ((run d).1, mkRedis (run d).2 rest).
Proof. unfold command; simpl. by destruct (run d). Qed.

Lemma command_quiet d :
  command run (mkRedis d []) = ((run d).1, mkRedis (run d).2 []).
Proof. unfold command; simpl. by destruct (run d). Qed.

(** A command either fails and leaves the key space alone, or runs. *)
Lemma command_cases st :
  (∃ st', command run st = (Raise "Error connecting to Redis", st') ∧ db st' = db st) ∨
  (∃ fs, command run st = ((run (db st)).1, mkRedis (run (db st)).2 fs)).
Proof.
  destruct st as [d [|[] rest]].
  - right. eexists. apply command_quiet.
  - left. eexists. split; [apply command_fault | done].
  - right. eexists. apply command_ok.
Qed.
End Commands.

Lemma glob_star_all s :
  (fix star (s : string) : bool :=
     glob_match "" s || match s with EmptyString => false | String _ s' => star s' end) s
  = true.
Proof. induction s as [|a s IH]; simpl; [done | exact IH]. Qed.

Lemma index_key_prefix id : index_key (KEY_PREFIX +:+ id) = true.
Proof. unfold index_key; simpl. apply glob_star_all. Qed.

Lemma strip_prefix_app p s : strip_prefix p (p +:+ s) = Some s.
Proof.
  induction p as [|a p IH]; simpl; [done |].
  by rewrite Ascii.eqb_refl.
Qed.

Lemma new_key_fresh (d : gmap string rvalue) : d !! new_key d = None.
Proof.
  destruct (d !! new_key d) as [v|] eqn:Hk; [exfalso | done].
  apply (is_fresh (index_ids d)). unfold index_ids.
  apply elem_of_list_to_set, list_elem_of_omap.
  exists (new_key d). split.
  - apply list_elem_of_fmap. exists (new_key d, v). split; [done |].
    by apply elem_of_map_to_list.
  - apply strip_prefix_app.
Qed.

Lemma new_key_index d : index_key (new_key d) = true.
Proof. apply index_key_prefix. Qed.

(** ** The dedup loop *)

Section Dedup.
Context (E : Env).
Implicit Types (d : gmap string rvalue) (st : redis) (a k : string).

Lemma reads_as_empty a : reads_as E a ∅ = false.
Proof. reflexivity. Qed.

Lemma hgetall_db key st : db (redis_hgetall key st).2 = db st.
Proof.
  unfold redis_hgetall.
  destruct (command_cases
    (λ d, match d !! key with
          | None => (Return ∅, d)
          | Some (RHash fields) => (Return fields, d)
          | Some (RString _) =>
              (Raise "WRONGTYPE Operation against a key holding the wrong kind of value", d)
          end) st) as [(st' & -> & Hdb)|(fs & ->)]; simpl; [done |].
  by destruct (db st !! key) as [[]|].
Qed.

Lemma hgetall_Return key st fields st' a :
  redis_hgetall key st = (Return fields, st') →
  reads_as E a fields = hit E a (db st) key.
Proof.
  unfold redis_hgetall, hit.
  destruct (command_cases
    (λ d, match d !! key with
          | None => (Return ∅, d)
          | Some (RHash fields) => (Return fields, d)
          | Some (RString _) =>
              (Raise "WRONGTYPE Operation against a key holding the wrong kind of value", d)
          end) st) as [(st1 & -> & Hdb)|(fs & ->)]; [done |].
  destruct (db st !! key) as [[]|]; simpl; intros [= <- <-]; done.
Qed.

Lemma scan_keys_db a keys acc st : db (scan_keys E a keys acc st).2 = db st.
Proof.
  revert acc st. induction keys as [|key keys IH]; intros acc st; simpl; [done |].
  unfold bind at 1.
  pose proof (hgetall_db key st) as Hdb.
  destruct (redis_hgetall key st) as [[fields|e] st1]; simpl in *; [| done].
  unfold bind, lift. destruct (stored_path E fields); simpl; [| done].
  by rewrite IH.
Qed.

Lemma scan_keys_Return a keys acc st ktd st' :
  scan_keys E a keys acc st = (Return ktd, st') →
  ktd = acc ++ filter (λ k, hit E a (db st) k = true) keys.
Proof.
  revert acc st ktd. induction keys as [|key keys IH]; intros acc st ktd; simpl.
  { intros [= <- <-]. by rewrite app_nil_r. }
  unfold bind at 1.
  pose proof (hgetall_db key st) as Hdb.
  destruct (redis_hgetall key st) as [[fields|e] st1] eqn:Hget; simpl in *; [| done].
  apply (hgetall_Return _ _ _ _ a) in Hget.
  unfold bind, lift. unfold reads_as in Hget.
  destruct (stored_path E fields) as [stored|e]; simpl.
  - intros Hscan%IH. rewrite Hdb in Hscan. subst ktd.
    rewrite filter_cons. rewrite <- Hget.
    destruct (is_path a stored); simpl.
    + by rewrite <- app_assoc.
    + done.
  - done.
Qed.

Lemma entry_of_hit a d k v :
  d !! k = Some v → entry_of E a k v = index_key k && hit E a d k.
Proof. intros Hk. unfold entry_of, hit. rewrite Hk. by destruct v. Qed.

Lemma hit_listed a d k :
  hit E a d k = true → k ∈ (map_to_list d).*1.
Proof.
  unfold hit. destruct (d !! k) as [v|] eqn:Hk; [intros _ | done].
  apply list_elem_of_fmap. exists (k, v). split; [done |].
  by apply elem_of_map_to_list.
Qed.

(** One guarded body deletes a list of keys that the scan matched, and
    all of the matching keys when it does not raise. *)
Lemma dedup_one_deletes a st :
  ∃ ktd,
    db (dedup_one E a st).2 = foldr delete (db st) ktd ∧
    (∀ k, k ∈ ktd → index_key k = true ∧ hit E a (db st) k = true) ∧
    ((dedup_one E a st).1 = Return tt →
     ∀ k, index_key k = true → hit E a (db st) k = true → k ∈ ktd).
Proof.
  unfold dedup_one, redis_keys, bind.
  change (glob_match (INDEX_NAME +:+ ":*")) with index_key.
  destruct (command_cases
    (λ d, (Return (filter (λ k, index_key k = true) (map_to_list d).*1), d)) st)
    as [(st1 & -> & Hdb)|(fs & ->)]; cbn [fst snd].
  { exists []. rewrite Hdb. split_and!; [done | by intros k ?%elem_of_nil | done]. }
  set (keys := filter _ _).
  pose proof (scan_keys_db a keys [] (mkRedis (db st) fs)) as Hdb.
  destruct (scan_keys E a keys [] (mkRedis (db st) fs)) as [[ktd|e] st2] eqn:Hscan;
    cbn [fst snd db] in Hdb |- *.
  2:{ exists []. rewrite Hdb. split_and!; [done | by intros k ?%elem_of_nil | done]. }
  apply scan_keys_Return in Hscan. cbn [db app] in Hscan.
  assert (Hsound : ∀ k, k ∈ ktd → index_key k = true ∧ hit E a (db st) k = true).
  { intros k. rewrite Hscan. rewrite list_elem_of_filter. intros [Hhit Hk].
    split; [| done]. unfold keys in Hk. by apply list_elem_of_filter in Hk as [? _]. }
  assert (Hcomplete : ∀ k, index_key k = true → hit E a (db st) k = true → k ∈ ktd).
  { intros k Hik Hhit. rewrite Hscan. apply list_elem_of_filter. split; [done |].
    unfold keys. apply list_elem_of_filter. split; [done | by eapply hit_listed]. }
  clear Hscan. destruct ktd as [|k0 ktd'].
  { exists []. cbn [ret fst snd foldr]. rewrite Hdb.
    split_and!; [done | by intros k ?%elem_of_nil | done]. }
  unfold redis_delete.
  destruct (command_cases (λ d, (Return tt, foldr delete d (k0 :: ktd'))) st2)
    as [(st3 & -> & Hdb3)|(fs3 & ->)]; cbn [fst snd db].
  - exists []. cbn [foldr]. rewrite Hdb3, Hdb.
    split_and!; [done | by intros k ?%elem_of_nil | done].
  - exists (k0 :: ktd'). rewrite Hdb. split_and!; [done | done | by intros _].
Qed.

Lemma dedup_one_shrinks a st k v :
  db (dedup_one E a st).2 !! k = Some v → db st !! k = Some v.
Proof.
  destruct (dedup_one_deletes a st) as (ktd & -> & _).
  by intros [_ ?]%lookup_foldr_delete_Some.
Qed.

Lemma dedup_one_frame a st k v :
  db st !! k = Some v →
  db (dedup_one E a st).2 !! k = Some v ∨
  (db (dedup_one E a st).2 !! k = None ∧ entry_of E a k v = true).
Proof.
  intros Hk. destruct (dedup_one_deletes a st) as (ktd & -> & Hsound & _).
  destruct (decide (k ∈ ktd)) as [Hin|Hin].
  - right. split; [by apply lookup_foldr_delete |].
    rewrite (entry_of_hit a (db st)) by done.
    by destruct (Hsound k Hin) as [-> ->].
  - left. by rewrite lookup_foldr_delete_not_elem_of.
Qed.

(** A scan that runs to its end leaves no entry of its path. *)
Lemma dedup_one_clean a st :
  (dedup_one E a st).1 = Return tt →
  entries_of E a (db (dedup_one E a st).2) = ∅.
Proof.
  intros Hret. destruct (dedup_one_deletes a st) as (ktd & Hdb & _ & Hcomplete).
  specialize (Hcomplete Hret). rewrite Hdb.
  apply map_empty_filter. intros k v Hk. simpl.
  apply lookup_foldr_delete_Some in Hk as [Hnot Hk].
  rewrite (entry_of_hit a (db st)) by done.
  intros [Hik Hhit]%andb_true_iff. by apply Hnot, Hcomplete.
Qed.

Lemma dedup_pass_Return file_paths st : (dedup_pass E file_paths st).1 = Return tt.
Proof.
  revert st. induction file_paths as [|p rest IH]; intros st; simpl; [done |].
  unfold bind, swallow. apply IH.
Qed.

Lemma dedup_pass_cons p rest st :
  (dedup_pass E (p :: rest) st).2
  = (dedup_pass E rest (dedup_one E (abspath E p) st).2).2.
Proof.
  simpl. unfold bind, swallow.
  by destruct (dedup_pass E rest (dedup_one E (abspath E p) st).2) as [[] ?].
Qed.

Lemma dedup_pass_app l1 l2 st :
  (dedup_pass E (l1 ++ l2) st).2 = (dedup_pass E l2 (dedup_pass E l1 st).2).2.
Proof.
  revert st. induction l1 as [|p l1 IH]; intros st; [done |].
  rewrite <- app_comm_cons, !dedup_pass_cons. apply IH.
Qed.

Lemma dedup_pass_shrinks file_paths st k v :
  db (dedup_pass E file_paths st).2 !! k = Some v → db st !! k = Some v.
Proof.
  revert st. induction file_paths as [|p rest IH]; intros st; [done |].
  rewrite dedup_pass_cons. intros Hk%IH. by eapply dedup_one_shrinks.
Qed.

Lemma dedup_pass_frame file_paths st k v :
  db st !! k = Some v →
  db (dedup_pass E file_paths st).2 !! k = Some v ∨
  (db (dedup_pass E file_paths st).2 !! k = None ∧
   ∃ p, p ∈ file_paths ∧ entry_of E (abspath E p) k v = true).
Proof.
  revert st. induction file_paths as [|p rest IH]; intros st Hk; [by left |].
  rewrite dedup_pass_cons.
  destruct (dedup_one_frame (abspath E p) st k v Hk) as [Hkeep|[Hgone Hentry]].
  - destruct (IH _ Hkeep) as [?|[? (q & Hq & ?)]]; [by left |].
    right. split; [done |]. exists q. split; [by right | done].
  - right. split.
    + destruct (db (dedup_pass E rest (dedup_one E (abspath E p) st).2).2 !! k)
        as [w|] eqn:Hw; [| done].
      apply dedup_pass_shrinks in Hw. congruence.
    + exists p. split; [by left | done].
Qed.

Lemma entries_of_shrink a d d' :
  (∀ k v, d' !! k = Some v → d !! k = Some v) →
  entries_of E a d = ∅ → entries_of E a d' = ∅.
Proof.
  intros Hsub Hempty. apply map_empty_filter. intros k v Hk Hentry.
  eapply (map_filter_empty_not_lookup _ d k v); [exact Hempty | exact Hentry | by apply Hsub].
Qed.

(** A scan that ran to its end has emptied its path for the rest of the
    loop. *)
Lemma dedup_pass_clean file_paths st p :
  scan_completed E file_paths st p →
  entries_of E (abspath E p) (db (dedup_pass E file_paths st).2) = ∅.
Proof.
  intros (before & after & -> & Hret).
  rewrite dedup_pass_app, dedup_pass_cons.
  eapply entries_of_shrink; [| by apply dedup_one_clean].
  intros k v. apply dedup_pass_shrinks.
Qed.
End Dedup.

(** ** The vector store *)

Section Store.
Context (E : Env).
Implicit Types (d : gmap string rvalue) (st : redis) (a k : string).

Lemma write_entries_cons h hs d :
  (write_entries (h :: hs) d).2 = (write_entries hs (<[new_key d := RHash h]> d)).2.
Proof. simpl. by destruct (write_entries hs _). Qed.

(** Writing new entries leaves the stored ones as they are. *)
Lemma write_entries_keeps hs d k v :
  d !! k = Some v → (write_entries hs d).2 !! k = Some v.
Proof.
  revert d. induction hs as [|h hs IH]; intros d Hk; [done |].
  rewrite write_entries_cons. apply IH. rewrite lookup_insert_ne; [done |].
  intros <-. by rewrite new_key_fresh in Hk.
Qed.

(** What the store holds afterwards was there, or is one of the hashes. *)
Lemma write_entries_origin hs d k v :
  (write_entries hs d).2 !! k = Some v →
  d !! k = Some v ∨ (d !! k = None ∧ ∃ h, h ∈ hs ∧ v = RHash h).
Proof.
  revert d. induction hs as [|h hs IH]; intros d; [by left |].
  rewrite write_entries_cons. intros [Hk|[Hk (h' & Hh' & ->)]]%IH.
  - apply lookup_insert_Some in Hk as [[<- <-]|[? Hk]]; [| by left].
    right. split; [apply new_key_fresh |]. exists h. split; [by left | done].
  - right. apply lookup_insert_None in Hk as [Hk _].
    split; [done |]. exists h'. split; [by right | done].
Qed.

Lemma count_entries_insert a d h :
  count_entries E a (<[new_key d := RHash h]> d)
  = count_entries E a d + (if reads_as E a h then 1 else 0).
Proof.
  unfold count_entries, entries_of.
  destruct (reads_as E a h) eqn:Hr.
  - rewrite map_filter_insert_True.
    2:{ cbn [fst snd]. unfold entry_of. by rewrite new_key_index, Hr. }
    rewrite map_size_insert_None; [lia |].
    apply map_lookup_filter_None. left. apply new_key_fresh.
  - rewrite map_filter_insert_False.
    2:{ cbn [fst snd]. unfold entry_of. by rewrite new_key_index, Hr. }
    rewrite delete_id by apply new_key_fresh. lia.
Qed.

(** Every hash that reads as [a] adds one entry of [a]. *)
Lemma count_entries_write a hs d :
  count_entries E a (write_entries hs d).2
  = count_entries E a d + length (filter (λ h, reads_as E a h = true) hs).
Proof.
  revert d. induction hs as [|h hs IH]; intros d; [simpl; lia |].
  rewrite write_entries_cons, IH, count_entries_insert, filter_cons.
  destruct (reads_as E a h).
  - rewrite decide_True by done. simpl. lia.
  - rewrite decide_False by done. lia.
Qed.

Lemma index_entries_Forall2 docs hs :
  index_entries E docs = Return hs →
  Forall2 (λ doc h, index_entry E doc = Return h) docs hs.
Proof.
  revert hs. induction docs as [|doc docs IH]; intros hs; simpl; step_outcome.
  { intros [= <-]. constructor. }
  destruct (index_entry E doc) as [h|e] eqn:Hentry; [| done].
  destruct (index_entries E docs) as [hs'|e]; [| done].
  intros [= <-]. constructor; [done | by apply IH].
Qed.

(** Under a readable layout the hashes that read as [a] are those of the
    chunks tagged [a]. *)
Lemma readable_count a docs hs :
  Forall (readable E) docs →
  Forall2 (λ doc h, index_entry E doc = Return h) docs hs →
  length (filter (λ h, reads_as E a h = true) hs)
  = length (filter (λ doc, is_path a (metadata doc !! "source_file") = true) docs).
Proof.
  intros Hread Hall. induction Hall as [|doc h docs hs Hentry _ IH]; [done |].
  apply Forall_cons in Hread as [Hdoc Hread].
  assert (Heq : reads_as E a h = is_path a (metadata doc !! "source_file")).
  { unfold reads_as. by rewrite (Hdoc h Hentry). }
  rewrite !filter_cons.
  destruct (is_path a (metadata doc !! "source_file")).
  - rewrite !decide_True by done. simpl. by rewrite IH.
  - rewrite !decide_False by (rewrite ?Heq; done). by apply IH.
Qed.

(** [add_documents] raises and leaves the key space alone, or lays out
    every chunk and writes the batch. *)
Lemma add_documents_cases docs st :
  (∃ e st', add_documents E docs st = (Raise e, st') ∧ db st' = db st) ∨
  (∃ hs ids st', add_documents E docs st = (Return ids, st') ∧
                 index_entries E docs = Return hs ∧
                 db st' = (write_entries hs (db st)).2).
Proof.
  unfold add_documents, bind, lift.
  destruct (index_entries E docs) as [hs|e]; [| by left; eauto].
  destruct (command_cases
    (λ d, let (ids, d') := write_entries hs d in (Return ids, d')) st)
    as [(st' & -> & Hdb)|(fs & ->)]; [by left; eauto |].
  right. destruct (write_entries hs (db st)) as [ids d'] eqn:Hw.
  exists hs, ids, (mkRedis d' fs). by rewrite Hw.
Qed.
End Store.

(** ** The load loop *)

Section Load.
Context (E : Env) (chunk_size chunk_overlap : Z).

Lemma load_chunks_tagged abs_path chunks doc :
  load_chunks E chunk_size chunk_overlap abs_path = Return chunks →
  doc ∈ chunks → metadata doc !! "source_file" = Some (VStr abs_path).
Proof.
  unfold load_chunks. step_outcome.
  destruct (if String.eqb _ _ then _ else _) as [file_docs|e]; [| done].
  destruct (split_documents E chunk_size chunk_overlap file_docs) as [cs|e]; [| done].
  intros [= <-] (c & -> & _)%list_elem_of_fmap. apply lookup_insert_eq.
Qed.

Lemma path_chunks_tagged p doc :
  doc ∈ path_chunks E chunk_size chunk_overlap p →
  metadata doc !! "source_file" = Some (VStr (abspath E p)).
Proof.
  unfold path_chunks.
  destruct (load_chunks E chunk_size chunk_overlap (abspath E p)) eqn:Hload.
  - by apply load_chunks_tagged.
  - by intros ?%elem_of_nil.
Qed.

(** When the loop runs to its end, [docs] holds the chunks of every
    listed path, in the order of the list, once per occurrence. *)
Lemma load_pass_inr file_paths acc docs :
  load_pass E chunk_size chunk_overlap file_paths acc = inr docs →
  docs = acc ++ concat (path_chunks E chunk_size chunk_overlap <$> file_paths).
Proof.
  revert acc. induction file_paths as [|p rest IH]; intros acc; simpl.
  { intros [= <-]. by rewrite app_nil_r. }
  destruct (path_exists E (abspath E p)); simpl; [| done].
  unfold path_chunks at 1.
  destruct (load_chunks E chunk_size chunk_overlap (abspath E p)) as [chunks|e]; [| done].
  intros ->%IH. by rewrite <- app_assoc.
Qed.

(** The loop returns at the first path it cannot load, with a message
    built from the canonical form of that path. *)
Lemma load_pass_stops before p after acc :
  Forall (λ q, ¬ unloadable E chunk_size chunk_overlap q) before →
  unloadable E chunk_size chunk_overlap p →
  load_pass E chunk_size chunk_overlap (before ++ p :: after) acc
  = inl (if path_exists E (abspath E p)
         then match load_chunks E chunk_size chunk_overlap (abspath E p) with
              | Raise e => "Error processing " +:+ abspath E p +:+ ": " +:+ e
              | Return _ => ""
              end
         else "Error: File not found: " +:+ abspath E p).
Proof.
  intros Hbefore Hp. revert acc.
  induction Hbefore as [|q before Hq _ IH]; intros acc; simpl.
  - destruct (path_exists E (abspath E p)) eqn:Hex; simpl; [| done].
    destruct Hp as [Hp|[e He]]; [congruence |]. by rewrite He.
  - destruct (path_exists E (abspath E q)) eqn:Hex; simpl.
    + destruct (load_chunks E chunk_size chunk_overlap (abspath E q)) as [chunks|e] eqn:Hl.
      * apply IH.
      * exfalso. apply Hq. right. by exists e.
    + exfalso. apply Hq. by left.
Qed.

(** The failures of the load loop, told by what the loaders and the splitter
    do. *)
Lemma load_chunks_Raise p e :
  load_chunks E chunk_size chunk_overlap (abspath E p) = Raise e
  ↔ read_error E chunk_size chunk_overlap p e.
Proof.
  unfold load_chunks, read_error, is_pdf. cbn zeta. step_outcome.
  destruct (if String.eqb _ _ then _ else _) as [file_docs|e'].
  - destruct (split_documents E chunk_size chunk_overlap file_docs) as [cs|e''] eqn:Hs.
    + split; [done | intros [[=] | (? & [= <-] & ?)]; congruence].
    + split.
      * intros [= ->]. right. by exists file_docs.
      * intros [[=] | (? & [= <-] & ?)]; congruence.
  - split.
    + intros [= ->]. by left.
    + by intros [[= ->] | (? & [=] & _)].
Qed.

Lemma fails_to_load_unloadable p :
  fails_to_load E chunk_size chunk_overlap p ↔ unloadable E chunk_size chunk_overlap p.
Proof.
  unfold fails_to_load, unloadable.
  split; (intros [?|[e He]]; [by left | right; exists e; by apply load_chunks_Raise]).
Qed.

Lemma loads_not_unloadable file_paths :
  Forall (λ q, ¬ fails_to_load E chunk_size chunk_overlap q) file_paths →
  Forall (λ q, ¬ unloadable E chunk_size chunk_overlap q) file_paths.
Proof.
  intros Hall. eapply Forall_impl; [exact Hall |].
  intros q Hq ?%fails_to_load_unloadable. done.
Qed.

(** The loop passes over the paths it can load, collecting their chunks. *)
Lemma load_pass_app before rest acc :
  Forall (λ p, ¬ unloadable E chunk_size chunk_overlap p) before →
  load_pass E chunk_size chunk_overlap (before ++ rest) acc
  = load_pass E chunk_size chunk_overlap rest
      (acc ++ concat (path_chunks E chunk_size chunk_overlap <$> before)).
Proof.
  intros Hall. revert acc. induction Hall as [|p before Hp _ IH]; intros acc; simpl.
  { by rewrite app_nil_r. }
  destruct (path_exists E (abspath E p)) eqn:Hex; simpl.
  - unfold path_chunks at 1.
    destruct (load_chunks E chunk_size chunk_overlap (abspath E p)) as [chunks|e] eqn:Hl.
    + by rewrite IH, <- app_assoc.
    + exfalso. apply Hp. right. by exists e.
  - exfalso. apply Hp. by left.
Qed.
End Load.

Lemma load_pass_total E chunk_size chunk_overlap file_paths acc :
  Forall (λ p, ¬ unloadable E chunk_size chunk_overlap p) file_paths →
  load_pass E chunk_size chunk_overlap file_paths acc
  = inr (acc ++ concat (path_chunks E chunk_size chunk_overlap <$> file_paths)).
Proof.
  intros Hall. revert acc. induction Hall as [|p rest Hp _ IH]; intros acc; simpl.
  { by rewrite app_nil_r. }
  destruct (path_exists E (abspath E p)) eqn:Hex; simpl.
  - unfold path_chunks at 1.
    destruct (load_chunks E chunk_size chunk_overlap (abspath E p)) as [chunks|e] eqn:Hl.
    + by rewrite IH, <- app_assoc.
    + exfalso. apply Hp. right. by exists e.
  - exfalso. apply Hp. by left.
Qed.

(** ** The phases of save_to_memory *)

Section Save.
Context (E : Env) (chunk_size chunk_overlap : Z).
Implicit Types (st : redis) (file_paths : list string).

(** The splitter is built before anything else, outside every handler. *)
Lemma save_raises file_paths st e :
  splitter_init E chunk_size chunk_overlap = Raise e →
  save_to_memory E file_paths chunk_size chunk_overlap st = (Raise e, st).
Proof. intros He. unfold save_to_memory, bind, lift. by rewrite He. Qed.

(** Once the splitter is built: the dedup loop, the load loop, the
    insertion, in this order. *)
Lemma save_phases file_paths st :
  splitter_init E chunk_size chunk_overlap = Return tt →
  save_to_memory E file_paths chunk_size chunk_overlap st =
    let st1 := (dedup_pass E file_paths st).2 in
    match load_pass E chunk_size chunk_overlap file_paths [] with
    | inl msg => (Return msg, st1)
    | inr docs =>
        match add_documents E docs st1 with
        | (Return _, st2) => (Return (success_message (length file_paths)), st2)
        | (Raise e, st2) => (Return ("Error saving to memory: " +:+ e), st2)
        end
    end.
Proof.
  intros Hsp. unfold save_to_memory, bind, lift. rewrite Hsp.
  pose proof (dedup_pass_Return E file_paths st) as Hret.
  destruct (dedup_pass E file_paths st) as [[[]|e] st1]; [| done].
  cbn [snd]. by destruct (load_pass E chunk_size chunk_overlap file_paths []).
Qed.

Lemma load_pass_inl file_paths acc msg :
  load_pass E chunk_size chunk_overlap file_paths acc = inl msg →
  ∃ rest, msg = "Error" +:+ rest.
Proof.
  revert acc. induction file_paths as [|p rest IH]; intros acc; simpl; [done |].
  destruct (path_exists E (abspath E p)); simpl.
  - destruct (load_chunks E chunk_size chunk_overlap (abspath E p)) as [chunks|e].
    + apply IH.
    + intros [= <-]. by eexists.
  - intros [= <-]. by eexists.
Qed.

Lemma success_message_not_error n rest : success_message n ≠ "Error" +:+ rest.
Proof. done. Qed.

(** A call that reports success built its splitter, loaded every path and
    wrote one hash per chunk on top of what the dedup loop left. *)
Lemma save_succeeds file_paths st n :
  (save_to_memory E file_paths chunk_size chunk_overlap st).1
    = Return (success_message n) →
  ∃ hs,
    load_pass E chunk_size chunk_overlap file_paths []
      = inr (chunks_of E chunk_size chunk_overlap file_paths) ∧
    index_entries E (chunks_of E chunk_size chunk_overlap file_paths) = Return hs ∧
    db (save_to_memory E file_paths chunk_size chunk_overlap st).2
      = (write_entries hs (db (dedup_pass E file_paths st).2)).2.
Proof.
  destruct (splitter_init E chunk_size chunk_overlap) as [[]|e] eqn:Hsp.
  2:{ by rewrite (save_raises _ _ e). }
  rewrite save_phases by done. cbn zeta. unfold chunks_of.
  destruct (load_pass E chunk_size chunk_overlap file_paths []) as [msg|docs] eqn:Hload.
  { cbn [fst]. intros [= ->]. apply load_pass_inl in Hload as [rest Hrest].
    by apply success_message_not_error in Hrest. }
  destruct (add_documents_cases E docs (dedup_pass E file_paths st).2)
    as [(e & st' & -> & _)|(hs & ids & st' & -> & Hhs & Hdb)]; cbn [fst snd].
  - intros Hmsg. discriminate Hmsg.
  - intros _. by exists hs.
Qed.
End Save.

(** ** The definitions at work *)

Example splitext_png : splitext "/home/agent/image.PNG" = ("/home/agent/image", ".PNG").
Proof. reflexivity. Qed.

Example splitext_two_dots : splitext "backup/notes.tar.gz" = ("backup/notes.tar", ".gz").
Proof. reflexivity. Qed.

Example splitext_hidden : splitext "/home/agent/.bashrc" = ("/home/agent/.bashrc", "").
Proof. reflexivity. Qed.

Example splitext_dotted_directory : splitext "/srv/v1.2/readme" = ("/srv/v1.2/readme", "").
Proof. reflexivity. Qed.

Example lower_extension : lower ".PdF" = ".pdf".
Proof. reflexivity. Qed.

Example index_key_yes : index_key "doc_chunks:01A" = true.
Proof. reflexivity. Qed.

Example index_key_no : index_key "other_index:01A" = false.
Proof. reflexivity. Qed.

(** A clean scan deletes the chunk of the path and nothing else. *)
Example scan_deletes_a :
  dedup_one Scenario.env "/home/agent/a.txt" (Scenario.up Scenario.index0)
  = (Return tt, Scenario.up {[ "doc_chunks:01B" := RHash Scenario.old_b ]}).
Proof. by vm_compute. Qed.

(** HGETALL on a key that is not a hash raises; the keys collected so far
    are not deleted. *)
Example scan_stops_at_counter :
  dedup_one Scenario.env "/home/agent/a.txt" (Scenario.up Scenario.index_with_counter)
  = (Raise "WRONGTYPE Operation against a key holding the wrong kind of value",
     Scenario.up Scenario.index_with_counter).
Proof. by vm_compute. Qed.

(** After such a scan the save goes on: the older chunk of [a.txt] stays
    next to the new one. *)
Example save_after_stopped_scan :
  count_entries Scenario.env "/home/agent/a.txt"
    (db (save_to_memory Scenario.env ["a.txt"] 1000 100
           (Scenario.up Scenario.index_with_counter)).2) = 2.
Proof. by vm_compute. Qed.

(** Metadata that parses to a list has no [get]. *)
Example scan_stops_at_list :
  (dedup_one Scenario.env "/home/agent/a.txt" (Scenario.up Scenario.index_with_list)).1
  = Raise "object has no attribute 'get'".
Proof. by vm_compute. Qed.

(** * The claims *)

(** ** Dedup isolation *)

Lemma entry_of_unique E a b k v :
  entry_of E a k v = true → entry_of E b k v = true → a = b.
Proof.
  unfold entry_of, reads_as, is_path.
  intros [_ Ha]%andb_true_iff [_ Hb]%andb_true_iff.
  destruct v as [fields|]; [| done].
  destruct (stored_path E fields) as [stored|]; [| done].
  apply bool_decide_eq_true in Ha, Hb. congruence.
Qed.

(** C7 -- Saving a list of paths leaves every stored key that is not an
    Index Entry of one of the listed canonical paths exactly as it was; in
    particular an entry whose stored source path is [B] survives, with the
    same hash, every save whose listed paths all have a canonical form other
    than [B]. The dedup loop deletes only keys the scan matched against a
    canonical path of the call, and the insertion writes under keys that
    were free. *)
Theorem save_keeps_other_entries E file_paths chunk_size chunk_overlap st k v :
  db st !! k = Some v →
  let d' := db (save_to_memory E file_paths chunk_size chunk_overlap st).2 in
  ((∀ p, p ∈ file_paths → entry_of E (abspath E p) k v = false) → d' !! k = Some v) ∧
  (∀ B, entry_of E B k v = true →
        (∀ p, p ∈ file_paths → abspath E p ≠ B) → d' !! k = Some v).
Proof.
  intros Hk d'.
  assert (Hframe : (∀ p, p ∈ file_paths → entry_of E (abspath E p) k v = false) →
                   d' !! k = Some v).
  { intros Hother. subst d'.
    destruct (splitter_init E chunk_size chunk_overlap) as [[]|e] eqn:Hsp.
    2:{ by rewrite (save_raises _ _ _ _ _ e). }
    rewrite save_phases by done. cbn zeta.
    assert (Hkept : db (dedup_pass E file_paths st).2 !! k = Some v).
    { destruct (dedup_pass_frame E file_paths st k v Hk) as [?|[_ (p & Hp & Hentry)]];
        [done |]. rewrite (Hother p Hp) in Hentry. done. }
    destruct (load_pass E chunk_size chunk_overlap file_paths []) as [msg|docs]; [done |].
    destruct (add_documents_cases E docs (dedup_pass E file_paths st).2)
      as [(e & st' & -> & Hdb)|(hs & ids & st' & -> & _ & Hdb)]; cbn [snd]; rewrite Hdb.
    - done.
    - by apply write_entries_keeps. }
  split; [done |].
  intros B HB Hdistinct. apply Hframe. intros p Hp.
  destruct (entry_of E (abspath E p) k v) eqn:Hentry; [| done].
  exfalso. apply (Hdistinct p Hp). by eapply entry_of_unique.
Qed.

Lemma save_keeps_other_entries_witness :
  db (save_to_memory Scenario.env ["a.txt"] 1000 100 (Scenario.up Scenario.index0)).2
    !! "doc_chunks:01B" = Some (RHash Scenario.old_b) ∧
  db (save_to_memory Scenario.env ["a.txt"] 1000 100 (Scenario.up Scenario.index0)).2
    !! "doc_chunks:01A" = None.
Proof.
  split; [| by vm_compute].
  apply (save_keeps_other_entries Scenario.env ["a.txt"] 1000 100
           (Scenario.up Scenario.index0) "doc_chunks:01B" (RHash Scenario.old_b)).
  - by vm_compute.
  - intros p ->%list_elem_of_singleton. by vm_compute.
Defined.

(** ** Failures of the dedup loop and of the insertion *)

(** C6 -- Whatever happens inside the dedup loop, the loop itself never
    raises: once the splitter is built, the result of save is decided by the
    load loop and the insertion alone, run on the key space the dedup loop
    left. A load failure returns its message, a failed insertion returns
    "Error saving to memory: ..." instead of the confirmation, and a
    completed insertion returns the confirmation, also after a scan that
    raised. *)
Theorem dedup_failure_is_swallowed E file_paths chunk_size chunk_overlap st :
  splitter_init E chunk_size chunk_overlap = Return tt →
  let st1 := (dedup_pass E file_paths st).2 in
  (dedup_pass E file_paths st).1 = Return tt ∧
  match load_pass E chunk_size chunk_overlap file_paths [] with
  | inl msg =>
      save_to_memory E file_paths chunk_size chunk_overlap st = (Return msg, st1)
  | inr docs =>
      match add_documents E docs st1 with
      | (Return _, st2) =>
          save_to_memory E file_paths chunk_size chunk_overlap st
          = (Return (success_message (length file_paths)), st2)
      | (Raise e, st2) =>
          save_to_memory E file_paths chunk_size chunk_overlap st
          = (Return ("Error saving to memory: " +:+ e), st2)
      end
  end.
Proof.
  intros Hsp st1. split; [apply dedup_pass_Return |].
  rewrite save_phases by done. cbn zeta. fold st1.
  destruct (load_pass E chunk_size chunk_overlap file_paths []) as [msg|docs]; [done |].
  by destruct (add_documents E docs st1) as [[ids|e] st2].
Qed.

Lemma dedup_failure_is_swallowed_witness :
  (dedup_one Scenario.env "/home/agent/a.txt" (mkRedis Scenario.index0 [true])).1
    = Raise "Error connecting to Redis" ∧
  (dedup_pass Scenario.env ["a.txt"] (mkRedis Scenario.index0 [true])).1 = Return tt ∧
  (save_to_memory Scenario.env ["a.txt"] 1000 100 (mkRedis Scenario.index0 [true])).1
    = Return (success_message 1) ∧
  (save_to_memory Scenario.env ["a.txt"] 1000 100
     (mkRedis Scenario.index0 [false; false; false; false; true])).1
    = Return "Error saving to memory: Error connecting to Redis".
Proof.
  split; [by vm_compute |]. split.
  - exact (proj1 (dedup_failure_is_swallowed Scenario.env ["a.txt"] 1000 100
                    (mkRedis Scenario.index0 [true]) eq_refl)).
  - split; by vm_compute.
Defined.

(** ** Failures of the load loop *)

Lemma first_unloadable E chunk_size chunk_overlap file_paths :
  Exists (unloadable E chunk_size chunk_overlap) file_paths →
  ∃ before p after,
    file_paths = before ++ p :: after ∧
    Forall (λ q, ¬ unloadable E chunk_size chunk_overlap q) before ∧
    unloadable E chunk_size chunk_overlap p.
Proof.
  induction file_paths as [|q rest IH]; [by intros ?%Exists_nil |].
  intros Hex.
  assert (Hdec : unloadable E chunk_size chunk_overlap q ∨
                 ¬ unloadable E chunk_size chunk_overlap q).
  { unfold unloadable.
    destruct (path_exists E (abspath E q)); [| by left; left].
    destruct (load_chunks E chunk_size chunk_overlap (abspath E q)) as [c|e].
    - right. intros [?|[e ?]]; done.
    - left. right. by exists e. }
  destruct Hdec as [Hq|Hq].
  - exists [], q, rest. by split_and!.
  - apply Exists_cons in Hex as [?|Hex]; [done |].
    destruct (IH Hex) as (before & p & after & -> & Hbefore & Hp).
    exists (q :: before), p, after. split_and!; [done | by constructor | done].
Qed.

(** Once the splitter is built, a save stops at the first listed path that
    the load loop cannot take, and what it leaves is what the dedup loop
    left. *)
Lemma save_stops_at_unloadable E file_paths chunk_size chunk_overlap st :
  splitter_init E chunk_size chunk_overlap = Return tt →
  Exists (unloadable E chunk_size chunk_overlap) file_paths →
  ∃ before p after msg,
    file_paths = before ++ p :: after ∧
    Forall (λ q, ¬ unloadable E chunk_size chunk_overlap q) before ∧
    unloadable E chunk_size chunk_overlap p ∧
    (msg = "Error: File not found: " +:+ abspath E p ∨
     ∃ e, load_chunks E chunk_size chunk_overlap (abspath E p) = Raise e ∧
          msg = "Error processing " +:+ abspath E p +:+ ": " +:+ e) ∧
    save_to_memory E file_paths chunk_size chunk_overlap st
      = (Return msg, (dedup_pass E file_paths st).2) ∧
    ∀ k v, db (save_to_memory E file_paths chunk_size chunk_overlap st).2 !! k = Some v →
           db st !! k = Some v.
Proof.
  intros Hsp (before & p & after & -> & Hbefore & Hp)%first_unloadable.
  pose proof (load_pass_stops E chunk_size chunk_overlap before p after [] Hbefore Hp)
    as Hload.
  assert (Hsave : ∀ msg,
    load_pass E chunk_size chunk_overlap (before ++ p :: after) [] = inl msg →
    save_to_memory E (before ++ p :: after) chunk_size chunk_overlap st
      = (Return msg, (dedup_pass E (before ++ p :: after) st).2) ∧
    ∀ k v, db (save_to_memory E (before ++ p :: after) chunk_size chunk_overlap st).2
             !! k = Some v → db st !! k = Some v).
  { intros msg Hmsg. rewrite save_phases by done. cbn zeta. rewrite Hmsg.
    split; [done |]. intros k v. apply dedup_pass_shrinks. }
  destruct (path_exists E (abspath E p)) eqn:Hex.
  - destruct Hp as [Hp|[e He]]; [congruence |]. rewrite He in Hload.
    destruct (Hsave _ Hload) as [Hres Hdb].
    eexists before, p, after, _. split_and!; [done | done | | | exact Hres | exact Hdb].
    + right. by exists e.
    + right. by exists e.
  - destruct (Hsave _ Hload) as [Hres Hdb].
    eexists before, p, after, _. split_and!; [done | done | | | exact Hres | exact Hdb].
    + by left.
    + by left.
Qed.

(** C4 (as stated, refuted) -- [missing.txt] does not exist, and the sizes
    100 and 101 are refused by the constructor of the splitter, which line
    54 calls before any path is looked at and outside every handler: the
    call ends with that exception, not with an error value, and no message
    names the missing path. *)
Lemma missing_path_with_refused_sizes_raises :
  path_exists Scenario.env (abspath Scenario.env "missing.txt") = false ∧
  (save_to_memory Scenario.env ["missing.txt"] 100 101 (Scenario.up Scenario.index0)).1
  = Raise "Got a larger chunk overlap (101) than chunk size (100), should be smaller.".
Proof. by vm_compute. Qed.

(** C4 (amended) -- Let the constructor of the splitter accept the sizes of
    the call. When a listed path is missing, or the loader for its extension
    or the splitter raises on it, save stops at the first such path and
    returns, as a value, "Error: File not found: <canonical path>" when the
    path is missing and "Error processing <canonical path>: <message>", with
    the message of the loader or of the splitter, otherwise; the key space
    it leaves is the one the dedup loop left, a part of the initial one, so
    the call has inserted nothing. *)
Theorem load_failure_aborts E file_paths chunk_size chunk_overlap st :
  splitter_init E chunk_size chunk_overlap = Return tt →
  Exists (fails_to_load E chunk_size chunk_overlap) file_paths →
  ∃ before p after msg,
    file_paths = before ++ p :: after ∧
    Forall (λ q, ¬ fails_to_load E chunk_size chunk_overlap q) before ∧
    ((path_exists E (abspath E p) = false ∧
      msg = "Error: File not found: " +:+ abspath E p) ∨
     (path_exists E (abspath E p) = true ∧
      ∃ e, read_error E chunk_size chunk_overlap p e ∧
           msg = "Error processing " +:+ abspath E p +:+ ": " +:+ e)) ∧
    save_to_memory E file_paths chunk_size chunk_overlap st
      = (Return msg, (dedup_pass E file_paths st).2) ∧
    ∀ k v, db (save_to_memory E file_paths chunk_size chunk_overlap st).2 !! k = Some v →
           db st !! k = Some v.
Proof.
  intros Hsp Hex.
  destruct (save_stops_at_unloadable E file_paths chunk_size chunk_overlap st Hsp)
    as (before & p & after & msg & -> & Hbefore & Hp & Hmsg & Hsave & Hdb).
  { eapply Exists_impl; [exact Hex |]. intros q. apply fails_to_load_unloadable. }
  exists before, p, after, msg. split_and!; [done | | | done | done].
  - eapply Forall_impl; [exact Hbefore |].
    intros q Hq ?%fails_to_load_unloadable. done.
  - pose proof Hsave as Hrun. rewrite save_phases in Hrun by done. cbn zeta in Hrun.
    rewrite (load_pass_stops E chunk_size chunk_overlap before p after [] Hbefore Hp) in Hrun.
    injection Hrun as Hrun.
    destruct (path_exists E (abspath E p)) eqn:Hpe; [right | left; by split].
    split; [done |].
    destruct Hp as [Hp|[e He]]; [congruence |]. rewrite He in Hrun.
    exists e. split; [by apply load_chunks_Raise | done].
Qed.

Lemma load_failure_aborts_witness :
  (∃ msg,
     (save_to_memory Scenario.env ["a.txt"; "missing.txt"; "b.txt"] 1000 100
        (Scenario.up Scenario.index0)).1 = Return msg ∧
     msg = "Error: File not found: /home/agent/missing.txt") ∧
  (∃ msg,
     (save_to_memory Scenario.env ["a.txt"; "photo.png"; "b.txt"] 1000 100
        (Scenario.up Scenario.index0)).1 = Return msg ∧
     msg = "Error processing /home/agent/photo.png: Error loading /home/agent/photo.png").
Proof.
  split.
  - destruct (load_failure_aborts Scenario.env ["a.txt"; "missing.txt"; "b.txt"] 1000 100
                (Scenario.up Scenario.index0) eq_refl)
      as (before & p & after & msg & _ & _ & _ & Hsave & _).
    { apply Exists_cons_tl, Exists_cons_hd. left. by vm_compute. }
    exists msg. rewrite Hsave. split; [done |].
    vm_compute in Hsave. by injection Hsave as <-.
  - destruct (load_failure_aborts Scenario.env ["a.txt"; "photo.png"; "b.txt"] 1000 100
                (Scenario.up Scenario.index0) eq_refl)
      as (before & p & after & msg & _ & _ & _ & Hsave & _).
    { apply Exists_cons_tl, Exists_cons_hd. right.
      exists "Error loading /home/agent/photo.png". left. by vm_compute. }
    exists msg. rewrite Hsave. split; [done |].
    vm_compute in Hsave. by injection Hsave as <-.
Defined.

(** ** recall_from_memory *)

Lemma render_results_spec results i output :
  render_results i results output
  = output ++ imap (λ j doc, format_result (i + j) doc) results.
Proof.
  revert i output. induction results as [|doc rest IH]; intros i output; simpl.
  { by rewrite app_nil_r. }
  rewrite IH, <- app_assoc. simpl. rewrite Nat.add_0_r.
  do 2 f_equal. apply imap_ext. intros j d _. simpl. f_equal. lia.
Qed.

Lemma concat_starts sep a s blocks :
  ∃ s', String.concat sep (String a s :: blocks) = String a s'.
Proof. destruct blocks; simpl; by eexists. Qed.

Lemma format_result_starts i doc : ∃ s, format_result i doc = String "*" s.
Proof. unfold format_result. cbn [String.append]. by eexists. Qed.

(** C9 -- When the search returns no result, recall returns the fixed
    notice, which is neither empty nor one of recall's error strings;
    otherwise it returns one block per result, in the order of the search,
    the block of the i-th result (counted from 1) being
    "**Result i**", its source and its content, the blocks joined by a line
    of three dashes, and that output differs from the notice. *)
Theorem recall_output E query k d results :
  similarity_search E query k d = Return results →
  (results = [] → recall_from_memory E query k d = nothing_found) ∧
  nothing_found ≠ "" ∧
  (∀ e, nothing_found ≠ "Error recalling from memory: " +:+ e) ∧
  (results ≠ [] →
   ∃ blocks,
     recall_from_memory E query k d = String.concat separator blocks ∧
     length blocks = length results ∧
     (∀ i doc, results !! i = Some doc →
        blocks !! i = Some ("**Result " +:+ pretty (S i) +:+ "**" +:+ nl
                            +:+ "Source: "
                            +:+ py_str (default (VStr "unknown")
                                          (metadata doc !! "source_file"))
                            +:+ nl +:+ nl +:+ "Content:" +:+ nl
                            +:+ page_content doc +:+ nl)) ∧
     recall_from_memory E query k d ≠ nothing_found).
Proof.
  intros Hsearch. unfold recall_from_memory. rewrite Hsearch.
  split_and!; [by intros -> | done | done |].
  intros Hne. destruct results as [|doc rest]; [done |].
  exists (render_results 1 (doc :: rest) []).
  rewrite render_results_spec. cbn [app].
  split_and!.
  - done.
  - by rewrite length_imap.
  - intros i doc' Hi. rewrite list_lookup_imap, Hi. done.
  - cbn [imap].
    destruct (format_result_starts (1 + 0) doc) as [s Hs]. rewrite Hs.
    destruct (concat_starts separator "*" s
                (imap ((λ j doc0, format_result (1 + j) doc0) ∘ S) rest)) as [s' Hs'].
    rewrite Hs'. done.
Qed.

Lemma recall_output_witness :
  recall_from_memory Scenario.env "notes" 3 Scenario.index0
  = "**Result 1**" +:+ nl +:+ "Source: /home/agent/a.txt" +:+ nl +:+ nl
    +:+ "Content:" +:+ nl +:+ "An older version of the note." +:+ nl
    +:+ nl +:+ "---" +:+ nl
    +:+ "**Result 2**" +:+ nl +:+ "Source: /home/agent/b.txt" +:+ nl +:+ nl
    +:+ "Content:" +:+ nl +:+ "The splitter cuts long notes into pieces." +:+ nl
  ∧ recall_from_memory Scenario.env "notes" 3 ∅ = nothing_found.
Proof.
  split; [by vm_compute |].
  by apply (recall_output Scenario.env "notes" 3 ∅ []).
Defined.

(** ** The source path of a chunk *)

(** C8 -- After a save that reports success, the chunks handed to the
    vector store are the chunks of the listed paths, and every chunk of a
    listed path carries under "source_file" the canonical form of that path,
    unchanged: the scan of the dedup loop compares stored paths with that
    same string, and recall prints it on the "Source:" line of the chunk. *)
Theorem chunks_carry_canonical_path E file_paths chunk_size chunk_overlap st n :
  (save_to_memory E file_paths chunk_size chunk_overlap st).1
    = Return (success_message n) →
  ∃ hs,
    index_entries E (concat (path_chunks E chunk_size chunk_overlap <$> file_paths))
      = Return hs ∧
    db (save_to_memory E file_paths chunk_size chunk_overlap st).2
      = (write_entries hs (db (dedup_pass E file_paths st).2)).2 ∧
    ∀ p doc,
      p ∈ file_paths → doc ∈ path_chunks E chunk_size chunk_overlap p →
      metadata doc !! "source_file" = Some (VStr (abspath E p)) ∧
      is_path (abspath E p) (metadata doc !! "source_file") = true ∧
      ∀ i, format_result i doc
           = "**Result " +:+ pretty i +:+ "**" +:+ nl +:+ "Source: " +:+ abspath E p
             +:+ nl +:+ nl +:+ "Content:" +:+ nl +:+ page_content doc +:+ nl.
Proof.
  intros (hs & Hload & Hhs & Hdb)%save_succeeds.
  apply load_pass_inr in Hload. cbn [app] in Hload. rewrite Hload in Hhs.
  exists hs. split_and!; [done | done |].
  intros p doc _ Htag%path_chunks_tagged.
  split_and!; [done | |].
  - rewrite Htag. by apply bool_decide_eq_true.
  - intros i. unfold format_result. by rewrite Htag.
Qed.

Lemma chunks_carry_canonical_path_witness :
  Forall (λ doc, metadata doc !! "source_file" = Some (VStr "/home/agent/a.txt"))
         (path_chunks Scenario.env 1000 100 "a.txt").
Proof.
  apply Forall_forall. intros doc Hdoc.
  destruct (chunks_carry_canonical_path Scenario.env ["a.txt"] 1000 100
              (Scenario.up Scenario.index0) 1) as (hs & _ & _ & Htag).
  { by vm_compute. }
  apply (Htag "a.txt" doc); [by left | done].
Defined.

(** ** Counting the entries of a path *)

Section Counting.
Context (E : Env) (chunk_size chunk_overlap : Z).
Implicit Types (st : redis) (file_paths : list string) (p q : string).

Lemma tagged_all (a : string) (docs : list Document) :
  (∀ doc, doc ∈ docs → metadata doc !! "source_file" = Some (VStr a)) →
  filter (λ doc, is_path a (metadata doc !! "source_file") = true) docs = docs.
Proof.
  induction docs as [|doc docs IH]; intros Htag; [done |].
  rewrite filter_cons, decide_True.
  - f_equal. apply IH. intros d Hd. apply Htag. by right.
  - rewrite (Htag doc) by by left. by apply bool_decide_eq_true.
Qed.

Lemma tagged_none (a b : string) (docs : list Document) :
  a ≠ b →
  (∀ doc, doc ∈ docs → metadata doc !! "source_file" = Some (VStr b)) →
  filter (λ doc, is_path a (metadata doc !! "source_file") = true) docs = [].
Proof.
  intros Hab. induction docs as [|doc docs IH]; intros Htag; [done |].
  rewrite filter_cons, decide_False.
  - apply IH. intros d Hd. apply Htag. by right.
  - rewrite (Htag doc) by by left. unfold is_path.
    rewrite bool_decide_eq_true. congruence.
Qed.

Lemma path_chunks_canonical p q :
  abspath E p = abspath E q →
  path_chunks E chunk_size chunk_overlap p = path_chunks E chunk_size chunk_overlap q.
Proof. unfold path_chunks. by intros ->. Qed.

(** Among the chunks of a call, those tagged with the canonical form of
    [p]: the chunks of [p], once for every listed path with that
    canonical form. *)
Lemma count_tagged file_paths p :
  length (filter (λ doc, is_path (abspath E p) (metadata doc !! "source_file") = true)
                 (concat (path_chunks E chunk_size chunk_overlap <$> file_paths)))
  = length (filter (λ q, abspath E q = abspath E p) file_paths)
    * length (path_chunks E chunk_size chunk_overlap p).
Proof.
  induction file_paths as [|q rest IH]; [done |].
  rewrite fmap_cons. cbn [concat]. rewrite filter_app, length_app, IH, filter_cons.
  destruct (decide (abspath E q = abspath E p)) as [Heq|Hne].
  - rewrite tagged_all.
    + rewrite (path_chunks_canonical q p Heq). simpl. lia.
    + intros doc Hdoc. rewrite <- Heq. by eapply path_chunks_tagged.
  - rewrite (tagged_none _ (abspath E q)); [simpl; lia | done |].
    intros doc Hdoc. by eapply path_chunks_tagged.
Qed.

(** The entries of a canonical path after a save that reports success:
    those the dedup loop left, and one per chunk tagged with it. *)
Lemma count_after_save file_paths st n p :
  (save_to_memory E file_paths chunk_size chunk_overlap st).1
    = Return (success_message n) →
  Forall (readable E) (chunks_of E chunk_size chunk_overlap file_paths) →
  count_entries E (abspath E p)
    (db (save_to_memory E file_paths chunk_size chunk_overlap st).2)
  = count_entries E (abspath E p) (db (dedup_pass E file_paths st).2)
    + length (filter (λ q, abspath E q = abspath E p) file_paths)
      * length (path_chunks E chunk_size chunk_overlap p).
Proof.
  intros (hs & Hload & Hhs & ->)%save_succeeds Hread.
  rewrite count_entries_write. f_equal.
  rewrite (readable_count E _ (chunks_of E chunk_size chunk_overlap file_paths))
    by (done || by apply index_entries_Forall2).
  apply load_pass_inr in Hload. cbn [app] in Hload. rewrite Hload.
  apply count_tagged.
Qed.
End Counting.

(** ** Paths listed more than once *)

(** C10 -- In a save that reports success the dedup loop has finished
    before the first insertion, so it removes nothing the call inserts:
    the entries of a canonical path afterwards are those the dedup loop left
    of the earlier ones, plus the chunks of the path once for every
    occurrence of the path (in any spelling with that canonical form) in the
    list. A path listed twice is stored twice. *)
Theorem listed_twice_stored_twice E file_paths chunk_size chunk_overlap st n p :
  (save_to_memory E file_paths chunk_size chunk_overlap st).1
    = Return (success_message n) →
  Forall (readable E) (chunks_of E chunk_size chunk_overlap file_paths) →
  (∀ k v, db (dedup_pass E file_paths st).2 !! k = Some v → db st !! k = Some v) ∧
  count_entries E (abspath E p)
    (db (save_to_memory E file_paths chunk_size chunk_overlap st).2)
  = count_entries E (abspath E p) (db (dedup_pass E file_paths st).2)
    + length (filter (λ q, abspath E q = abspath E p) file_paths)
      * length (path_chunks E chunk_size chunk_overlap p).
Proof.
  intros Hok Hread. split.
  - intros k v. apply dedup_pass_shrinks.
  - by eapply count_after_save.
Qed.

Lemma listed_twice_stored_twice_witness :
  count_entries Scenario.env "/home/agent/a.txt"
    (db (save_to_memory Scenario.env ["a.txt"; "/home/agent/a.txt"] 1000 100
           (Scenario.up Scenario.index0)).2) = 2.
Proof.
  destruct (listed_twice_stored_twice Scenario.env ["a.txt"; "/home/agent/a.txt"]
              1000 100 (Scenario.up Scenario.index0) 2 "a.txt") as [_ Hcount].
  - by vm_compute.
  - check_readable.
  - change (abspath Scenario.env "a.txt") with "/home/agent/a.txt" in Hcount.
    rewrite Hcount. by vm_compute.
Defined.

(** ** Saving a path again *)

(** C1 (as stated, refuted) -- A first save of [a.txt] stores one chunk. On
    the second save the KEYS command of the dedup loop fails; the failure is
    swallowed, nothing is deleted, the chunk is inserted again: two entries
    of the path where a single save leaves one. *)
Lemma resave_after_failed_scan_duplicates :
  Scenario.first_save.1 = Return (success_message 1) ∧
  Scenario.second_save.1 = Return (success_message 1) ∧
  count_entries Scenario.env "/home/agent/a.txt" (db Scenario.first_save.2) = 1 ∧
  count_entries Scenario.env "/home/agent/a.txt" (db Scenario.second_save.2) = 2.
Proof. by vm_compute. Qed.

(** C1 (amended) -- Let a path be saved, then saved again. If the scan of
    the second save runs to its end without raising, the second save reports
    success, and the vector store lays the chunks out in a form the scan
    reads, then the entries of the canonical path afterwards are exactly the
    chunks of the second load, one entry each: as many as a single
    successful save with a completed scan leaves, whatever the index held
    before, and each of them laid out from a chunk of the second load. *)
Theorem resave_replaces_entries
    E E0 p chunk_size chunk_overlap chunk_size0 chunk_overlap0 st0 sta :
  let a := abspath E p in
  let st1 := (save_to_memory E0 [p] chunk_size0 chunk_overlap0 st0).2 in
  let second := save_to_memory E [p] chunk_size chunk_overlap st1 in
  let single := save_to_memory E [p] chunk_size chunk_overlap sta in
  (dedup_one E a st1).1 = Return tt →
  (dedup_one E a sta).1 = Return tt →
  second.1 = Return (success_message 1) →
  single.1 = Return (success_message 1) →
  Forall (readable E) (chunks_of E chunk_size chunk_overlap [p]) →
  count_entries E a (db second.2) = count_entries E a (db single.2) ∧
  count_entries E a (db second.2) = length (path_chunks E chunk_size chunk_overlap p) ∧
  ∀ k v, db second.2 !! k = Some v → entry_of E a k v = true →
         ∃ doc fields, doc ∈ path_chunks E chunk_size chunk_overlap p ∧
                       index_entry E doc = Return fields ∧ v = RHash fields.
Proof.
  intros a st1 second single Hscan1 Hscana Hok1 Hoka Hread. subst a.
  set (a := abspath E p) in *.
  assert (Hcount : ∀ st,
    (dedup_one E a st).1 = Return tt →
    (save_to_memory E [p] chunk_size chunk_overlap st).1 = Return (success_message 1) →
    count_entries E a (db (save_to_memory E [p] chunk_size chunk_overlap st).2)
    = length (path_chunks E chunk_size chunk_overlap p)).
  { intros st Hscan Hok. unfold a.
    rewrite (count_after_save E chunk_size chunk_overlap [p] st 1 p Hok Hread).
    rewrite dedup_pass_cons. cbn [dedup_pass ret snd]. fold a.
    unfold count_entries at 1. rewrite (dedup_one_clean E _ st Hscan), map_size_empty.
    rewrite filter_cons, decide_True by done. simpl. lia. }
  split_and!.
  - unfold second, single. by rewrite !Hcount.
  - by apply Hcount.
  - intros k v Hk Hentry. unfold second in Hk.
    destruct (save_succeeds E chunk_size chunk_overlap [p] st1 1 Hok1)
      as (hs & Hload & Hhs & Hdb).
    rewrite Hdb in Hk. apply write_entries_origin in Hk as [Hk|[_ (h & Hh & ->)]].
    + exfalso. rewrite dedup_pass_cons in Hk. cbn [dedup_pass ret snd] in Hk.
      fold a in Hk.
      eapply (map_filter_empty_not_lookup _ _ k v);
        [exact (dedup_one_clean E a st1 Hscan1) | exact Hentry | exact Hk].
    + apply index_entries_Forall2 in Hhs.
      apply list_elem_of_lookup in Hh as [i Hi].
      destruct (Forall2_lookup_r _ _ _ _ _ Hhs Hi) as (doc & Hdoc & Hentry').
      exists doc, h. split_and!; [| done | done].
      apply load_pass_inr in Hload. cbn [app fmap list_fmap concat] in Hload.
      rewrite app_nil_r in Hload. rewrite <- Hload.
      by eapply list_elem_of_lookup_2.
Qed.

Lemma resave_replaces_entries_witness :
  count_entries Scenario.env_edited "/home/agent/a.txt" (db Scenario.saved_again.2) = 1 ∧
  count_entries Scenario.env_edited "/home/agent/a.txt"
    (db (save_to_memory Scenario.env_edited ["a.txt"] 1000 100 (Scenario.up ∅)).2) = 1.
Proof.
  destruct (resave_replaces_entries Scenario.env_edited Scenario.env "a.txt"
              1000 100 1000 100 (Scenario.up Scenario.index0) (Scenario.up ∅))
    as (Hsame & Hcount & _).
  - by vm_compute.
  - by vm_compute.
  - by vm_compute.
  - by vm_compute.
  - check_readable.
  - split.
    + exact Hcount.
    + by vm_compute.
Defined.

(** ** A save that fails while loading *)

(** C3 (as stated, refuted) -- The scan for [a.txt], listed after the
    missing path, fails on its KEYS command; save returns the
    "File not found" message and the stored chunk of [a.txt] is still
    there. *)
Lemma failed_save_after_failed_scan_keeps_entry :
  (save_to_memory Scenario.env ["missing.txt"; "a.txt"] 1000 100
     Scenario.fourth_command_fails).1
  = Return "Error: File not found: /home/agent/missing.txt" ∧
  count_entries Scenario.env "/home/agent/a.txt" (db Scenario.fourth_command_fails) = 1 ∧
  count_entries Scenario.env "/home/agent/a.txt"
    (db (save_to_memory Scenario.env ["missing.txt"; "a.txt"] 1000 100
           Scenario.fourth_command_fails).2) = 1.
Proof. by vm_compute. Qed.

(** C3 (amended) -- The dedup loop runs over the whole list before the
    first path is checked or loaded. When save returns the message of the
    load loop, the state it leaves is the one the dedup loop left: nothing
    is added or put back, and every listed path whose scan ran to its end
    without raising, before or after the failing path, has no entry left. *)
Theorem failed_save_keeps_deletions E file_paths chunk_size chunk_overlap st msg :
  (save_to_memory E file_paths chunk_size chunk_overlap st).1 = Return msg →
  load_pass E chunk_size chunk_overlap file_paths [] = inl msg →
  (save_to_memory E file_paths chunk_size chunk_overlap st).2
    = (dedup_pass E file_paths st).2 ∧
  (∀ k v, db (save_to_memory E file_paths chunk_size chunk_overlap st).2 !! k = Some v →
          db st !! k = Some v) ∧
  ∀ p, scan_completed E file_paths st p →
       count_entries E (abspath E p)
         (db (save_to_memory E file_paths chunk_size chunk_overlap st).2) = 0.
Proof.
  intros Hres Hload.
  destruct (splitter_init E chunk_size chunk_overlap) as [[]|e] eqn:Hsp.
  2:{ by rewrite (save_raises _ _ _ _ _ e) in Hres. }
  rewrite save_phases by done. cbn zeta. rewrite Hload. cbn [snd].
  split_and!; [done | |].
  - intros k v. apply dedup_pass_shrinks.
  - intros p Hscan. unfold count_entries.
    by rewrite (dedup_pass_clean E file_paths st p Hscan), map_size_empty.
Qed.

Lemma failed_save_keeps_deletions_witness :
  count_entries Scenario.env "/home/agent/a.txt" Scenario.index0 = 1 ∧
  count_entries Scenario.env "/home/agent/a.txt"
    (db (save_to_memory Scenario.env ["missing.txt"; "a.txt"] 1000 100
           (Scenario.up Scenario.index0)).2) = 0.
Proof.
  split; [by vm_compute |].
  destruct (failed_save_keeps_deletions Scenario.env ["missing.txt"; "a.txt"] 1000 100
              (Scenario.up Scenario.index0)
              "Error: File not found: /home/agent/missing.txt") as (_ & _ & Hgone).
  - by vm_compute.
  - by vm_compute.
  - apply (Hgone "a.txt"). exists ["missing.txt"], []. split; by vm_compute.
Defined.

(** ** File types *)

(** C2 (as stated, refuted) -- [image.png] exists and its bytes decode as
    text: save loads it through the text loader, reports success and stores
    one entry for it. The bytes of [photo.png] do not decode: the message
    is the one of any file the text loader fails on, and says nothing of the
    type. *)
Lemma png_is_loaded_as_text :
  lower (splitext (abspath Scenario.env "image.png")).2 = ".png" ∧
  (save_to_memory Scenario.env ["image.png"] 1000 100 (Scenario.up ∅)).1
  = Return (success_message 1) ∧
  count_entries Scenario.env "/home/agent/image.png"
    (db (save_to_memory Scenario.env ["image.png"] 1000 100 (Scenario.up ∅)).2) = 1 ∧
  (save_to_memory Scenario.env ["photo.png"] 1000 100 (Scenario.up ∅)).1
  = Return "Error processing /home/agent/photo.png: Error loading /home/agent/photo.png".
Proof. by vm_compute. Qed.

(** C2 (amended) -- save does not look at the content type. Let the
    constructor of the splitter accept the sizes, and let every path listed
    before [file_path] exist and load, so that the load loop reaches it.
    When [file_path] exists and its lower-cased extension is not ".pdf", it
    goes to the text loader: when the loader or the splitter raises, save
    returns "Error processing <canonical path>: <message>" and inserts
    nothing; when they return chunks and the paths listed after it load as
    well, its chunks are tagged with its canonical path and handed to the
    vector store among those of the other listed paths, as those of any
    text file. *)
Theorem other_types_fall_back_to_text E before file_path after chunk_size chunk_overlap st :
  splitter_init E chunk_size chunk_overlap = Return tt →
  Forall (λ q, ¬ fails_to_load E chunk_size chunk_overlap q) before →
  path_exists E (abspath E file_path) = true →
  lower (splitext (abspath E file_path)).2 ≠ ".pdf" →
  let a := abspath E file_path in
  let file_paths := before ++ file_path :: after in
  let st1 := (dedup_pass E file_paths st).2 in
  match text_loader E a ≫= split_documents E chunk_size chunk_overlap with
  | Raise e =>
      save_to_memory E file_paths chunk_size chunk_overlap st
      = (Return ("Error processing " +:+ a +:+ ": " +:+ e), st1) ∧
      ∀ k v, db st1 !! k = Some v → db st !! k = Some v
  | Return chunks =>
      Forall (λ q, ¬ fails_to_load E chunk_size chunk_overlap q) after →
      save_to_memory E file_paths chunk_size chunk_overlap st
      = match add_documents E
                (concat (path_chunks E chunk_size chunk_overlap <$> before)
                 ++ map (set_source_file a) chunks
                 ++ concat (path_chunks E chunk_size chunk_overlap <$> after)) st1 with
        | (Return _, st2) => (Return (success_message (length file_paths)), st2)
        | (Raise e, st2) => (Return ("Error saving to memory: " +:+ e), st2)
        end
  end.
Proof.
  intros Hsp Hbefore%loads_not_unloadable Hex Hext a file_paths st1.
  subst a file_paths. rewrite save_phases by done. cbn zeta. fold st1.
  rewrite load_pass_app by done. cbn [load_pass app]. rewrite Hex. cbn [negb].
  unfold load_chunks. apply String.eqb_neq in Hext. rewrite Hext.
  step_outcome.
  destruct (text_loader E (abspath E file_path)) as [file_docs|e].
  2: { split; [done | apply dedup_pass_shrinks]. }
  destruct (split_documents E chunk_size chunk_overlap file_docs) as [chunks|e].
  2: { split; [done | apply dedup_pass_shrinks]. }
  intros Hafter%loads_not_unloadable.
  by rewrite load_pass_total, <- app_assoc by done.
Qed.

Lemma other_types_fall_back_to_text_witness :
  save_to_memory Scenario.env ["a.txt"; "image.png"; "b.txt"] 1000 100 (Scenario.up ∅)
  = match add_documents Scenario.env
            (path_chunks Scenario.env 1000 100 "a.txt"
             ++ [mkDocument "not really a picture"
                   {[ "source" := VStr "/home/agent/image.png";
                      "source_file" := VStr "/home/agent/image.png" ]}]
             ++ path_chunks Scenario.env 1000 100 "b.txt")
            (Scenario.up ∅) with
    | (Return _, st2) => (Return (success_message 3), st2)
    | (Raise e, st2) => (Return ("Error saving to memory: " +:+ e), st2)
    end ∧
  save_to_memory Scenario.env ["a.txt"; "photo.png"; "b.txt"] 1000 100 (Scenario.up ∅)
  = (Return "Error processing /home/agent/photo.png: Error loading /home/agent/photo.png",
     Scenario.up ∅).
Proof.
  assert (Ha : Forall (λ q, ¬ fails_to_load Scenario.env 1000 100 q) ["a.txt"]).
  { apply Forall_singleton. intros [Hno|[e [He|(d & Hd & He)]]]; vm_compute in *; congruence. }
  assert (Hb : Forall (λ q, ¬ fails_to_load Scenario.env 1000 100 q) ["b.txt"]).
  { apply Forall_singleton. intros [Hno|[e [He|(d & Hd & He)]]]; vm_compute in *; congruence. }
  split.
  - pose proof (other_types_fall_back_to_text Scenario.env ["a.txt"] "image.png" ["b.txt"]
                  1000 100 (Scenario.up ∅) eq_refl Ha eq_refl) as Hsave.
    change ["a.txt"; "image.png"; "b.txt"] with (["a.txt"] ++ "image.png" :: ["b.txt"]).
    rewrite Hsave; [by vm_compute | by vm_compute | exact Hb].
  - pose proof (other_types_fall_back_to_text Scenario.env ["a.txt"] "photo.png" ["b.txt"]
                  1000 100 (Scenario.up ∅) eq_refl Ha eq_refl) as Hsave.
    destruct Hsave as [Hsave _]; [by vm_compute |].
    change ["a.txt"; "photo.png"; "b.txt"] with (["a.txt"] ++ "photo.png" :: ["b.txt"]).
    rewrite Hsave. by vm_compute.
Defined.

(** ** The chunking parameters *)

(** C5 (as stated, refuted) -- With the constructor check of langchain's
    splitter, which raises only for an overlap larger than the size: an
    overlap equal to the size is accepted and the file is saved; an overlap
    above the size makes save raise, it does not return a message. *)
Lemma overlap_not_below_size_is_not_refused :
  (save_to_memory Scenario.env ["a.txt"] 100 100 (Scenario.up ∅)).1
    = Return (success_message 1) ∧
  count_entries Scenario.env "/home/agent/a.txt"
    (db (save_to_memory Scenario.env ["a.txt"] 100 100 (Scenario.up ∅)).2) = 1 ∧
  (save_to_memory Scenario.env ["a.txt"] 100 101 (Scenario.up ∅)).1
    = Raise "Got a larger chunk overlap (101) than chunk size (100), should be smaller.".
Proof. by vm_compute. Qed.

(** C5 (amended) -- save never compares the two sizes: it hands them, as
    given, to the constructor of the splitter. For every pair with
    chunk_overlap >= chunk_size that the constructor accepts, save goes on
    with the pair: when every listed path loads and the insertion completes,
    it stores the chunks the splitter cut with that pair and returns the
    confirmation. *)
Theorem accepted_sizes_are_used_as_given
    E file_paths chunk_size chunk_overlap st docs ids st2 :
  (chunk_size ≤ chunk_overlap)%Z →
  splitter_init E chunk_size chunk_overlap = Return tt →
  load_pass E chunk_size chunk_overlap file_paths [] = inr docs →
  add_documents E docs (dedup_pass E file_paths st).2 = (Return ids, st2) →
  save_to_memory E file_paths chunk_size chunk_overlap st
    = (Return (success_message (length file_paths)), st2) ∧
  docs = concat (path_chunks E chunk_size chunk_overlap <$> file_paths).
Proof.
  intros _ Hsp Hload Hadd. split.
  - rewrite save_phases by done. cbn zeta. by rewrite Hload, Hadd.
  - by apply load_pass_inr in Hload.
Qed.

Lemma accepted_sizes_are_used_as_given_witness :
  (save_to_memory Scenario.env ["a.txt"] 100 100 (Scenario.up ∅)).1
  = Return (success_message 1).
Proof.
  destruct (add_documents Scenario.env
              (chunks_of Scenario.env 100 100 ["a.txt"])
              (dedup_pass Scenario.env ["a.txt"] (Scenario.up ∅)).2)
    as [[ids|e] st2] eqn:Hadd; [| by vm_compute in Hadd].
  destruct (accepted_sizes_are_used_as_given Scenario.env ["a.txt"] 100 100
              (Scenario.up ∅) (chunks_of Scenario.env 100 100 ["a.txt"]) ids st2)
    as [Hsave _].
  - lia.
  - reflexivity.
  - by vm_compute.
  - exact Hadd.
  - by rewrite Hsave.
Defined.

(** * Further properties of save_to_memory and recall_from_memory *)

(** ** What a save leaves alone *)

Lemma save_frame E file_paths chunk_size chunk_overlap st k v :
  db st !! k = Some v →
  (∀ p, p ∈ file_paths → entry_of E (abspath E p) k v = false) →
  db (save_to_memory E file_paths chunk_size chunk_overlap st).2 !! k = Some v.
Proof.
  intros Hk Hother.
  destruct (splitter_init E chunk_size chunk_overlap) as [[]|e] eqn:Hsp.
  2:{ by rewrite (save_raises _ _ _ _ _ e). }
  rewrite save_phases by done. cbn zeta.
  assert (Hkept : db (dedup_pass E file_paths st).2 !! k = Some v).
  { destruct (dedup_pass_frame E file_paths st k v Hk) as [?|[_ (p & Hp & Hentry)]];
      [done |]. by rewrite (Hother p Hp) in Hentry. }
  destruct (load_pass E chunk_size chunk_overlap file_paths []) as [msg|docs]; [done |].
  destruct (add_documents_cases E docs (dedup_pass E file_paths st).2)
    as [(e & st' & -> & Hdb)|(hs & ids & st' & -> & _ & Hdb)]; cbn [snd]; rewrite Hdb.
  - done.
  - by apply write_entries_keeps.
Qed.

(** X1 -- No save deletes or changes a key that the scan cannot match: a
    key outside the pattern [doc_chunks:*], a key that holds no hash, a hash
    whose stored path cannot be read (decoding or parsing raises), or a hash
    that carries no source path at all. *)
Theorem save_leaves_unmatched_keys E file_paths chunk_size chunk_overlap st k v :
  db st !! k = Some v →
  index_key k = false ∨
  (∃ s, v = RString s) ∨
  (∃ fields e, v = RHash fields ∧ stored_path E fields = Raise e) ∨
  (∃ fields, v = RHash fields ∧ stored_path E fields = Return None) →
  db (save_to_memory E file_paths chunk_size chunk_overlap st).2 !! k = Some v.
Proof.
  intros Hk Hcase. apply save_frame; [done |]. intros p _.
  unfold entry_of, reads_as.
  destruct Hcase as [->|[(s & ->)|[(fields & e & -> & ->)|(fields & -> & ->)]]].
  - done.
  - apply andb_false_r.
  - apply andb_false_r.
  - apply andb_false_r.
Qed.

Lemma save_leaves_unmatched_keys_witness :
  db (save_to_memory Scenario.env ["a.txt"] 1000 100
        (Scenario.up (<["session:42" := RHash Scenario.old_a]>
                        Scenario.index_with_counter))).2 !! "session:42"
  = Some (RHash Scenario.old_a) ∧
  db (save_to_memory Scenario.env ["a.txt"] 1000 100
        (Scenario.up Scenario.index_with_counter)).2 !! "doc_chunks:stats"
  = Some (RString "42").
Proof.
  split.
  - apply save_leaves_unmatched_keys; [by vm_compute | left; by vm_compute].
  - apply save_leaves_unmatched_keys; [by vm_compute | right; left; by eexists].
Defined.

(** ** One guarded body of the dedup loop *)

Lemma dedup_one_Raise E a st e :
  (dedup_one E a st).1 = Raise e → db (dedup_one E a st).2 = db st.
Proof.
  unfold dedup_one, redis_keys, bind.
  change (glob_match (INDEX_NAME +:+ ":*")) with index_key.
  destruct (command_cases
    (λ d, (Return (filter (λ k, index_key k = true) (map_to_list d).*1), d)) st)
    as [(st1 & -> & Hdb)|(fs & ->)]; cbn [fst snd]; [done |].
  set (keys := filter _ _).
  pose proof (scan_keys_db E a keys [] (mkRedis (db st) fs)) as Hdb.
  destruct (scan_keys E a keys [] (mkRedis (db st) fs)) as [[ktd|e'] st2];
    cbn [fst snd db] in Hdb |- *; [| done].
  destruct ktd as [|k0 ktd']; [done |].
  unfold redis_delete.
  destruct (command_cases (λ d, (Return tt, foldr delete d (k0 :: ktd'))) st2)
    as [(st3 & -> & Hdb3)|(fs3 & ->)]; cbn [fst snd db]; [| done].
  intros _. by rewrite Hdb3.
Qed.

Lemma dedup_one_Return E a st :
  (dedup_one E a st).1 = Return tt →
  db (dedup_one E a st).2 = filter (λ kv, entry_of E a kv.1 kv.2 = false) (db st).
Proof.
  intros Hret. destruct (dedup_one_deletes E a st) as (ktd & -> & Hsound & Hcomplete).
  specialize (Hcomplete Hret).
  apply map_eq. intros k. apply option_eq. intros v.
  rewrite lookup_foldr_delete_Some, map_lookup_filter_Some. cbn [fst snd].
  split.
  - intros [Hnot Hk]. split; [done |].
    rewrite (entry_of_hit E a (db st)) by done.
    destruct (index_key k) eqn:Hik; [| done].
    destruct (hit E a (db st) k) eqn:Hhit; [| done].
    exfalso. by apply Hnot, Hcomplete.
  - intros [Hk Hentry]. split; [| done].
    intros [Hik Hhit]%Hsound.
    rewrite (entry_of_hit E a (db st)) in Hentry by done.
    by rewrite Hik, Hhit in Hentry.
Qed.

(** X2 -- The body of the dedup loop for one path is all or nothing: the
    keys are collected first and deleted by one DEL at the end, so a body
    that raises (at KEYS, at an HGETALL, while decoding or parsing, or at the
    DEL) has deleted nothing, and a body that returns has deleted every
    entry of its path and no other key. *)
Theorem dedup_body_all_or_nothing E a st :
  (∃ e, (dedup_one E a st).1 = Raise e ∧ db (dedup_one E a st).2 = db st) ∨
  ((dedup_one E a st).1 = Return tt ∧
   db (dedup_one E a st).2 = filter (λ kv, entry_of E a kv.1 kv.2 = false) (db st)).
Proof.
  destruct (dedup_one E a st).1 as [[]|e] eqn:Hres.
  - right. split; [done |]. by apply dedup_one_Return.
  - left. exists e. split; [done |]. by eapply dedup_one_Raise.
Qed.

(** ** The whole dedup loop *)

(** X3 -- When the scan of every listed path runs to its end, the dedup
    loop leaves exactly the keys that are not an Index Entry of a listed
    canonical path, each with the value it had: the result does not depend
    on the order of the list or on repetitions in it. *)
Theorem dedup_loop_exact E file_paths st :
  (∀ p, p ∈ file_paths → scan_completed E file_paths st p) →
  db (dedup_pass E file_paths st).2
  = filter (λ kv, Forall (λ p, entry_of E (abspath E p) kv.1 kv.2 = false) file_paths)
           (db st).
Proof.
  intros Hscans. apply map_eq. intros k. apply option_eq. intros v.
  rewrite map_lookup_filter_Some. cbn [fst snd]. split.
  - intros Hk. split; [by eapply dedup_pass_shrinks |].
    apply Forall_forall. intros p Hp.
    destruct (entry_of E (abspath E p) k v) eqn:Hentry; [| done].
    exfalso.
    eapply (map_filter_empty_not_lookup _ _ k v);
      [exact (dedup_pass_clean E file_paths st p (Hscans p Hp)) | exact Hentry | exact Hk].
  - intros [Hk Hnone].
    destruct (dedup_pass_frame E file_paths st k v Hk) as [?|[_ (p & Hp & Hentry)]];
      [done |].
    rewrite Forall_forall in Hnone. by rewrite (Hnone p Hp) in Hentry.
Qed.

Lemma dedup_loop_exact_witness :
  db (dedup_pass Scenario.env ["b.txt"; "a.txt"; "b.txt"]
        (Scenario.up Scenario.index0)).2 = ∅ ∧
  db (dedup_pass Scenario.env ["a.txt"; "b.txt"] (Scenario.up Scenario.index0)).2
  = filter (λ kv, Forall (λ p, entry_of Scenario.env (abspath Scenario.env p) kv.1 kv.2
                               = false) ["a.txt"; "b.txt"])
           Scenario.index0.
Proof.
  split; [by vm_compute |].
  apply (dedup_loop_exact Scenario.env ["a.txt"; "b.txt"] (Scenario.up Scenario.index0)).
  intros p [->|[->|[]%elem_of_nil]%elem_of_cons]%elem_of_cons.
  - exists [], ["b.txt"]. split; by vm_compute.
  - exists ["a.txt"], []. split; by vm_compute.
Defined.

(** ** Where the content of the index comes from *)

Lemma write_entries_new hs d k v :
  (write_entries hs d).2 !! k = Some v →
  d !! k = Some v ∨ (index_key k = true ∧ ∃ h, h ∈ hs ∧ v = RHash h).
Proof.
  revert d. induction hs as [|h hs IH]; intros d; [by left |].
  rewrite write_entries_cons. intros [Hk|[Hik (h' & Hh' & ->)]]%IH.
  - apply lookup_insert_Some in Hk as [[<- <-]|[? Hk]]; [| by left].
    right. split; [apply new_key_index |]. exists h. split; [by left | done].
  - right. split; [done |]. exists h'. split; [by right | done].
Qed.

(** X4 -- Whatever a save returns, every key of the index afterwards holds
    either the value it held before the call, or a hash that the vector
    store laid out, under a key of the index, for a chunk loaded from one of
    the listed paths by this call. *)
Theorem save_adds_only_chunks E file_paths chunk_size chunk_overlap st k v :
  db (save_to_memory E file_paths chunk_size chunk_overlap st).2 !! k = Some v →
  db st !! k = Some v ∨
  (index_key k = true ∧
   ∃ p doc fields,
     p ∈ file_paths ∧ doc ∈ path_chunks E chunk_size chunk_overlap p ∧
     index_entry E doc = Return fields ∧ v = RHash fields).
Proof.
  destruct (splitter_init E chunk_size chunk_overlap) as [[]|e] eqn:Hsp.
  2:{ rewrite (save_raises _ _ _ _ _ e) by done. by left. }
  rewrite save_phases by done. cbn zeta.
  destruct (load_pass E chunk_size chunk_overlap file_paths []) as [msg|docs] eqn:Hload.
  { intros Hk. left. by eapply dedup_pass_shrinks. }
  destruct (add_documents_cases E docs (dedup_pass E file_paths st).2)
    as [(e & st' & -> & Hdb)|(hs & ids & st' & -> & Hhs & Hdb)]; cbn [snd]; rewrite Hdb.
  { intros Hk. left. by eapply dedup_pass_shrinks. }
  intros [Hk|[Hik (h & Hh & ->)]]%write_entries_new.
  { left. by eapply dedup_pass_shrinks. }
  right. split; [done |].
  apply index_entries_Forall2 in Hhs.
  apply list_elem_of_lookup in Hh as [i Hi].
  destruct (Forall2_lookup_r _ _ _ _ _ Hhs Hi) as (doc & Hdoc & Hentry).
  apply load_pass_inr in Hload. cbn [app] in Hload. subst docs.
  apply list_elem_of_lookup_2 in Hdoc.
  apply list_elem_of_In, in_concat in Hdoc as (chunks & Hchunks & Hdoc).
  apply list_elem_of_In in Hchunks, Hdoc.
  apply list_elem_of_fmap in Hchunks as (p & -> & Hp).
  by exists p, doc, h.
Qed.

Lemma save_adds_only_chunks_witness :
  ∃ doc,
    doc ∈ path_chunks Scenario.env_edited 1000 100 "a.txt" ∧
    index_entry Scenario.env_edited doc
    = Return {[ "text" := "Redis keeps one generation of chunks per note.";
                "source" := "/home/agent/a.txt";
                "source_file" := "/home/agent/a.txt" ]}.
Proof.
  destruct (save_adds_only_chunks Scenario.env_edited ["a.txt"] 1000 100
              Scenario.saved_once "doc_chunks:0"
              (RHash {[ "text" := "Redis keeps one generation of chunks per note.";
                        "source" := "/home/agent/a.txt";
                        "source_file" := "/home/agent/a.txt" ]}))
    as [Hold|[_ (p & doc & fields & Hp & Hdoc & Hentry & Hv)]].
  - by vm_compute.
  - by vm_compute in Hold.
  - apply list_elem_of_singleton in Hp as ->. injection Hv as <-. by exists doc.
Defined.

(** ** An empty list of paths *)

(** X5 -- A save of the empty list touches no key: both loops have nothing
    to run over and the vector store is handed no chunk. It returns the
    confirmation for 0 files, or the message of a failed insertion, or
    raises what the constructor of the splitter raised; never a message of
    the load loop. *)
Theorem save_of_nothing E chunk_size chunk_overlap st :
  db (save_to_memory E [] chunk_size chunk_overlap st).2 = db st ∧
  ((save_to_memory E [] chunk_size chunk_overlap st).1 = Return (success_message 0) ∨
   (∃ e, (save_to_memory E [] chunk_size chunk_overlap st).1
         = Return ("Error saving to memory: " +:+ e)) ∨
   (∃ e, splitter_init E chunk_size chunk_overlap = Raise e ∧
         (save_to_memory E [] chunk_size chunk_overlap st).1 = Raise e)).
Proof.
  destruct (splitter_init E chunk_size chunk_overlap) as [[]|e] eqn:Hsp.
  2:{ rewrite (save_raises _ _ _ _ _ e) by done. split; [done |].
      right. right. by exists e. }
  rewrite save_phases by done. cbn zeta. cbn [load_pass dedup_pass ret snd length].
  destruct (add_documents_cases E [] st)
    as [(e & st' & -> & Hdb)|(hs & ids & st' & -> & Hhs & Hdb)]; cbn [fst snd].
  - split; [done |]. right. left. by exists e.
  - injection Hhs as <-. split; [by rewrite Hdb | by left].
Qed.

(** ** What save returns *)

Lemma load_pass_inr_loadable E chunk_size chunk_overlap file_paths acc docs :
  load_pass E chunk_size chunk_overlap file_paths acc = inr docs →
  Forall (λ p, ¬ unloadable E chunk_size chunk_overlap p) file_paths.
Proof.
  revert acc. induction file_paths as [|p rest IH]; intros acc; simpl; [by constructor |].
  destruct (path_exists E (abspath E p)) eqn:Hex; simpl; [| done].
  destruct (load_chunks E chunk_size chunk_overlap (abspath E p)) as [chunks|e] eqn:Hl;
    [| done].
  intros Hrest%IH. constructor; [| done].
  intros [?|[e ?]]; congruence.
Qed.

Lemma load_pass_inl_forms E chunk_size chunk_overlap file_paths acc msg :
  load_pass E chunk_size chunk_overlap file_paths acc = inl msg →
  ∃ p, p ∈ file_paths ∧
       ((path_exists E (abspath E p) = false ∧
         msg = "Error: File not found: " +:+ abspath E p) ∨
        (∃ e, load_chunks E chunk_size chunk_overlap (abspath E p) = Raise e ∧
              msg = "Error processing " +:+ abspath E p +:+ ": " +:+ e)).
Proof.
  revert acc. induction file_paths as [|p rest IH]; intros acc; simpl; [done |].
  destruct (path_exists E (abspath E p)) eqn:Hex; simpl.
  - destruct (load_chunks E chunk_size chunk_overlap (abspath E p)) as [chunks|e] eqn:Hl.
    + intros (q & Hq & Hform)%IH. exists q. split; [by right | done].
    + intros [= <-]. exists p. split; [by left |]. right. by exists e.
  - intros [= <-]. exists p. split; [by left |]. by left.
Qed.

(** X6 -- save returns the confirmation exactly when the constructor of the
    splitter accepted the sizes, no listed path is missing or fails to load
    or split, and the vector store returned from the insertion of all their
    chunks. Nothing the dedup loop meets changes that, except through the
    state it hands to the insertion. *)
Theorem save_confirms_iff E file_paths chunk_size chunk_overlap st :
  (save_to_memory E file_paths chunk_size chunk_overlap st).1
    = Return (success_message (length file_paths))
  ↔ splitter_init E chunk_size chunk_overlap = Return tt ∧
    Forall (λ p, ¬ unloadable E chunk_size chunk_overlap p) file_paths ∧
    ∃ ids,
      (add_documents E (concat (path_chunks E chunk_size chunk_overlap <$> file_paths))
         (dedup_pass E file_paths st).2).1 = Return ids.
Proof.
  split.
  - destruct (splitter_init E chunk_size chunk_overlap) as [[]|e] eqn:Hsp.
    2:{ by rewrite (save_raises _ _ _ _ _ e). }
    rewrite save_phases by done. cbn zeta.
    destruct (load_pass E chunk_size chunk_overlap file_paths []) as [msg|docs] eqn:Hload.
    { cbn [fst]. intros [= ->]. apply load_pass_inl in Hload as [rest Hrest].
      by apply success_message_not_error in Hrest. }
    pose proof (load_pass_inr_loadable _ _ _ _ _ _ Hload) as Hall.
    apply load_pass_inr in Hload. cbn [app] in Hload. subst docs.
    destruct (add_documents E _ (dedup_pass E file_paths st).2) as [[ids|e] st2];
      cbn [fst].
    + intros _. split_and!; [done | done | by exists ids].
    + intros Hmsg. discriminate Hmsg.
  - intros (Hsp & Hall & ids & Hadd).
    rewrite save_phases by done. cbn zeta.
    rewrite (load_pass_total _ _ _ _ _ Hall). cbn [app].
    destruct (add_documents E _ (dedup_pass E file_paths st).2) as [[ids'|e] st2];
      cbn [fst] in Hadd |- *; [done | discriminate Hadd].
Qed.

(** X7 -- Every string that save returns has one of four forms: the
    confirmation with the number of listed paths; "Error: File not found: "
    and the canonical form of a listed path that does not exist; "Error
    processing <canonical path>: <message>" for a listed path whose loading
    or splitting raised that message; "Error saving to memory: <message>".
    The confirmation is the only one that does not begin with "Error". *)
Theorem save_message_forms E file_paths chunk_size chunk_overlap st msg :
  (save_to_memory E file_paths chunk_size chunk_overlap st).1 = Return msg →
  (msg = success_message (length file_paths) ∧ String.prefix "Error" msg = false) ∨
  (String.prefix "Error" msg = true ∧
   ((∃ p, p ∈ file_paths ∧ path_exists E (abspath E p) = false ∧
          msg = "Error: File not found: " +:+ abspath E p) ∨
    (∃ p e, p ∈ file_paths ∧
            load_chunks E chunk_size chunk_overlap (abspath E p) = Raise e ∧
            msg = "Error processing " +:+ abspath E p +:+ ": " +:+ e) ∨
    (∃ e, msg = "Error saving to memory: " +:+ e))).
Proof.
  destruct (splitter_init E chunk_size chunk_overlap) as [[]|e] eqn:Hsp.
  2:{ by rewrite (save_raises _ _ _ _ _ e). }
  rewrite save_phases by done. cbn zeta.
  destruct (load_pass E chunk_size chunk_overlap file_paths []) as [m|docs] eqn:Hload.
  { cbn [fst]. intros [= ->]. right.
    apply load_pass_inl_forms in Hload as (p & Hp & [[Hex ->]|(e & He & ->)]).
    - split; [done |]. left. by exists p.
    - split; [done |]. right. left. by exists p, e. }
  destruct (add_documents E docs (dedup_pass E file_paths st).2) as [[ids|e] st2];
    cbn [fst]; intros [= <-].
  - left. done.
  - right. split; [done |]. right. right. by exists e.
Qed.

Lemma save_message_forms_witness :
  ("Error processing /home/agent/photo.png: Error loading /home/agent/photo.png"
   = success_message (length ["a.txt"; "photo.png"]) ∧
   String.prefix "Error"
     "Error processing /home/agent/photo.png: Error loading /home/agent/photo.png"
   = false) ∨
  (String.prefix "Error"
     "Error processing /home/agent/photo.png: Error loading /home/agent/photo.png"
   = true ∧
   ((∃ p, p ∈ ["a.txt"; "photo.png"] ∧
          path_exists Scenario.env (abspath Scenario.env p) = false ∧
          "Error processing /home/agent/photo.png: Error loading /home/agent/photo.png"
          = "Error: File not found: " +:+ abspath Scenario.env p) ∨
    (∃ p e, p ∈ ["a.txt"; "photo.png"] ∧
            load_chunks Scenario.env 1000 100 (abspath Scenario.env p) = Raise e ∧
            "Error processing /home/agent/photo.png: Error loading /home/agent/photo.png"
            = "Error processing " +:+ abspath Scenario.env p +:+ ": " +:+ e) ∨
    (∃ e, "Error processing /home/agent/photo.png: Error loading /home/agent/photo.png"
          = "Error saving to memory: " +:+ e))).
Proof.
  apply (save_message_forms Scenario.env ["a.txt"; "photo.png"] 1000 100
           (Scenario.up Scenario.index0)).
  by vm_compute.
Defined.

(** ** A save that fails while inserting *)

(** X8 -- When every listed path loads and the insertion raises, save
    returns "Error saving to memory: <message>" and does nothing more: the
    state it leaves is the one the failed insertion left, and that insertion
    was started on the key space of the dedup loop, in which every listed
    path whose scan ran to its end has no entry. Nothing puts the deleted
    entries back. What the failed insertion wrote of the new chunks is the
    vector store's matter and is not stated. *)
Theorem failed_insert_keeps_deletions E file_paths chunk_size chunk_overlap st docs e :
  splitter_init E chunk_size chunk_overlap = Return tt →
  load_pass E chunk_size chunk_overlap file_paths [] = inr docs →
  (add_documents E docs (dedup_pass E file_paths st).2).1 = Raise e →
  (save_to_memory E file_paths chunk_size chunk_overlap st).1
    = Return ("Error saving to memory: " +:+ e) ∧
  (save_to_memory E file_paths chunk_size chunk_overlap st).2
    = (add_documents E docs (dedup_pass E file_paths st).2).2 ∧
  ∀ p, scan_completed E file_paths st p →
       count_entries E (abspath E p) (db (dedup_pass E file_paths st).2) = 0.
Proof.
  intros Hsp Hload Hadd. rewrite save_phases by done. cbn zeta. rewrite Hload.
  destruct (add_documents E docs (dedup_pass E file_paths st).2) as [[ids|e'] st2];
    cbn [fst snd] in Hadd |- *; [done |].
  injection Hadd as ->. split_and!; [done | done |].
  intros p Hscan. unfold count_entries.
  by rewrite (dedup_pass_clean E file_paths st p Hscan), map_size_empty.
Qed.

Lemma failed_insert_keeps_deletions_witness :
  count_entries Scenario.env "/home/agent/a.txt" Scenario.index0 = 1 ∧
  (save_to_memory Scenario.env ["a.txt"] 1000 100
     (mkRedis Scenario.index0 [false; false; false; false; true])).1
  = Return "Error saving to memory: Error connecting to Redis" ∧
  count_entries Scenario.env "/home/agent/a.txt"
    (db (dedup_pass Scenario.env ["a.txt"]
           (mkRedis Scenario.index0 [false; false; false; false; true])).2) = 0.
Proof.
  split; [by vm_compute |].
  destruct (failed_insert_keeps_deletions Scenario.env ["a.txt"] 1000 100
              (mkRedis Scenario.index0 [false; false; false; false; true])
              (chunks_of Scenario.env 1000 100 ["a.txt"]) "Error connecting to Redis")
    as (Hmsg & _ & Hgone).
  - reflexivity.
  - by vm_compute.
  - by vm_compute.
  - split; [exact Hmsg |].
    apply (Hgone "a.txt"). exists [], []. split; by vm_compute.
Defined.

(** ** Telling the outputs of recall apart *)

Lemma prefix_append s t : String.prefix s (s +:+ t) = true.
Proof.
  induction s as [|a s IH]; simpl; [by destruct t |].
  destruct (ascii_dec a a); [done | congruence].
Qed.

Lemma append_empty_r s : s +:+ "" = s.
Proof.
  induction s as [|a s IH]; [done |].
  change (String a (s +:+ "") = String a s). by f_equal.
Qed.

Lemma append_append s t u : (s +:+ t) +:+ u = s +:+ t +:+ u.
Proof.
  induction s as [|a s IH]; [done |].
  change (String a ((s +:+ t) +:+ u) = String a (s +:+ t +:+ u)). by f_equal.
Qed.

Lemma concat_head sep b bs : ∃ t, String.concat sep (b :: bs) = b +:+ t.
Proof.
  destruct bs as [|b' bs]; cbn [String.concat].
  - exists "". by rewrite append_empty_r.
  - by eexists.
Qed.

Lemma format_result_first doc : ∃ t, format_result 1 doc = ("**Result 1**" +:+ nl) +:+ t.
Proof. by eexists. Qed.

(** X9 -- The string recall returns tells which of its three exits was
    taken: it is the notice exactly when the search returned no result, it
    begins with "Error recalling from memory: " exactly when the search
    raised, and it begins with "**Result 1**" exactly when the search
    returned at least one result. *)
Theorem recall_exit_is_readable E query k d :
  (recall_from_memory E query k d = nothing_found
   ↔ similarity_search E query k d = Return []) ∧
  (String.prefix "Error recalling from memory: " (recall_from_memory E query k d) = true
   ↔ ∃ e, similarity_search E query k d = Raise e) ∧
  (String.prefix ("**Result 1**" +:+ nl) (recall_from_memory E query k d) = true
   ↔ ∃ doc rest, similarity_search E query k d = Return (doc :: rest)).
Proof.
  unfold recall_from_memory.
  destruct (similarity_search E query k d) as [[|doc rest]|e].
  - split_and!.
    + done.
    + split; [intros H; cbv in H; discriminate H | by intros [e ?]].
    + split; [intros H; cbv in H; discriminate H | by intros (doc & rest & ?)].
  - rewrite render_results_spec. cbn [app imap].
    change (1 + 0) with 1.
    destruct (concat_head separator (format_result 1 doc)
                (imap ((λ j doc0, format_result (1 + j) doc0) ∘ S) rest)) as [t Ht].
    destruct (format_result_first doc) as [t' Ht'].
    rewrite Ht, Ht', append_append.
    split_and!.
    + split; [intros H; cbv in H; discriminate H | intros [=]].
    + split; [intros H; cbv in H; discriminate H | by intros [e ?]].
    + split; [intros _; by exists doc, rest | intros _; apply prefix_append].
  - split_and!.
    + split; [intros H; cbv in H; discriminate H | intros [=]].
    + split; [intros _; by exists e | intros _; apply prefix_append].
    + split; [intros H; cbv in H; discriminate H | by intros (doc & rest & ?)].
Qed.

(** ** The keys the scan lists *)

Lemma glob_match_literal c pattern s :
  Ascii.eqb c "*"%char = false →
  glob_match (String c pattern) s
  = match s with
    | EmptyString => false
    | String d s' => Ascii.eqb c d && glob_match pattern s'
    end.
Proof. intros Hc. cbn [glob_match]. by rewrite Hc. Qed.

Lemma glob_literal_star literal s :
  forallb (λ c, negb (Ascii.eqb c "*"%char)) (list_ascii_of_string literal) = true →
  glob_match (literal +:+ "*") s = true ↔ ∃ t, s = literal +:+ t.
Proof.
  revert s. induction literal as [|c literal IH]; intros s Hlit.
  - split; [intros _; by exists s | intros _; apply glob_star_all].
  - cbn [list_ascii_of_string forallb] in Hlit.
    apply andb_true_iff in Hlit as [Hc Hlit]. apply negb_true_iff in Hc.
    change (String c literal +:+ "*") with (String c (literal +:+ "*")).
    rewrite glob_match_literal by done.
    destruct s as [|d s].
    + split; [done | by intros [t ?]].
    + rewrite andb_true_iff, (IH s Hlit). split.
      * intros [->%Ascii.eqb_eq [t ->]]. by exists t.
      * intros [t Ht]. change (String c literal +:+ t) with (String c (literal +:+ t)) in Ht.
        injection Ht as -> ->. split; [apply Ascii.eqb_refl | by exists t].
Qed.

(** X10 -- The pattern of the scan, [doc_chunks:*], lists a key exactly when
    the key begins with "doc_chunks:", whatever follows (also nothing, also
    further colons or stars): these are the keys under which the vector
    store keeps the chunks of the index. *)
Theorem scan_lists_the_index_prefix k :
  index_key k = true ↔ ∃ id, k = KEY_PREFIX +:+ id.
Proof. unfold index_key. by apply (glob_literal_star "doc_chunks:"). Qed.

(** * Properties of test_connection.py *)

Lemma test_imports_true H :
  (ConnectionTest.test_imports H).1 = true ↔ ConnectionTest.import_server H = Return tt.
Proof.
  unfold ConnectionTest.test_imports.
  by destruct (ConnectionTest.import_server H) as [[]|e].
Qed.

Lemma test_redis_true H :
  (ConnectionTest.test_redis H).1 = true ↔ ConnectionTest.ping H = Return true.
Proof.
  unfold ConnectionTest.test_redis.
  by destruct (ConnectionTest.ping H) as [[]|e].
Qed.

Lemma test_embeddings_true H :
  (ConnectionTest.test_embeddings H).1 = true
  ↔ ConnectionTest.import_embeddings H = Return tt ∧
    ∃ x v, ConnectionTest.embed_query H = Return (x :: v).
Proof.
  unfold ConnectionTest.test_embeddings.
  destruct (ConnectionTest.import_embeddings H) as [[]|e].
  - destruct (ConnectionTest.embed_query H) as [[|x v]|e']; cbn [fst].
    + split; [done | by intros [_ (x & v & ?)]].
    + split; [intros _; split; [done | by exists x, v] | done].
    + split; [done | by intros [_ (x & v & ?)]].
  - split; [done | by intros [? _]].
Qed.

(** X11 -- [main] exits with status 0 exactly when all three checks pass:
    the imports succeed, the ping of Redis returns true, and the model
    loads and returns a non-empty embedding for "test"; otherwise it exits
    with status 1. Whichever check fails, and however, all three are run and
    their lines printed, in the order imports, Redis, embeddings. *)
Theorem exit_status_of_main H :
  ((ConnectionTest.main H).2 = 0%Z
   ↔ ConnectionTest.import_server H = Return tt ∧
     ConnectionTest.ping H = Return true ∧
     ConnectionTest.import_embeddings H = Return tt ∧
     ∃ x v, ConnectionTest.embed_query H = Return (x :: v)) ∧
  ((ConnectionTest.main H).2 = 0%Z ∨ (ConnectionTest.main H).2 = 1%Z) ∧
  ∃ before after,
    (ConnectionTest.main H).1
    = before ++ (ConnectionTest.test_imports H).2 ++ (ConnectionTest.test_redis H).2
        ++ (ConnectionTest.test_embeddings H).2 ++ after.
Proof.
  rewrite <- test_imports_true, <- test_redis_true, <- test_embeddings_true.
  unfold ConnectionTest.main.
  destruct (ConnectionTest.test_imports H) as [[] out1];
    destruct (ConnectionTest.test_redis H) as [[] out2];
    destruct (ConnectionTest.test_embeddings H) as [[] out3];
    cbn [fst snd forallb andb].
  all: split_and!;
    [ split; [intros Hz; try discriminate Hz; by split_and! | by intros (? & ? & ?)]
    | (left; reflexivity) || (right; reflexivity)
    | eexists [_; _; _; _], _; reflexivity ].
Qed.



(** * Properties of validate_server_json.py *)

Section ServerJsonFacts.
Import ServerJson.
Context (H : Host).
Implicit Types (d v pkg : json) (out : list string).

Lemma wbind_print {B} s (f : unit → W B) out :
  wbind (print s) f out = f tt (out ++ [s]).
Proof. reflexivity. Qed.

Lemma wbind_Return {A B} (a : A) (f : A → W B) out :
  wbind (wlift (Return a)) f out = f a out.
Proof. reflexivity. Qed.

Lemma wbind_fst_Return {A B} (m : W A) (f : A → W B) out b :
  (wbind m f out).1 = Return b ↔
  ∃ a out', m out = (Return a, out') ∧ (f a out').1 = Return b.
Proof.
  unfold wbind. destruct (m out) as [[a|e] out']; cbn [fst].
  - split; [by exists a, out' | by intros (? & ? & [= <- <-] & ?)].
  - split; [done | by intros (? & ? & [=] & _)].
Qed.

Lemma contains_container d field :
  container d = true → ∃ b, contains d field = Return b.
Proof. destruct d; try done; by eexists. Qed.

Lemma missing_container d fields :
  container d = true →
  missing d fields = Return (filter (λ field, contains d field = Return false) fields).
Proof.
  intros Hd. induction fields as [|field rest IH]; [done |].
  cbn [missing]. destruct (contains_container d field Hd) as [b Hb].
  rewrite Hb, IH, filter_cons. destruct b.
  - by rewrite decide_False by (rewrite Hb; done).
  - by rewrite decide_True by done.
Qed.












Lemma print_summary_not_false d name out :
  (print_summary H d name out).1 ≠ Return false.
Proof. by destruct d. Qed.

Lemma run_checks_false d out :
  (run_checks H d out).1 = Return false → container d = true ∧ lacking d ≠ [].
Proof.
  unfold run_checks. destruct (container d) eqn:Hd; [| by destruct d].
  rewrite (missing_container _ _ Hd). fold (lacking d). rewrite wbind_Return.
  destruct (lacking d) as [|field rest]; [| done].
  rewrite wbind_print. intros Hf. exfalso.
  do 8 (apply wbind_fst_Return in Hf as (? & ? & _ & Hf)).
  by apply print_summary_not_false in Hf.
Qed.

Lemma run_checks_lacking d out :
  container d = true → lacking d ≠ [] →
  run_checks H d out =
  (Return false, out ++ ["❌ Missing required fields: " +:+ String.concat ", " (lacking d)]).
Proof.
  intros Hd Hl. unfold run_checks.
  rewrite (missing_container _ _ Hd). fold (lacking d). rewrite wbind_Return.
  by destruct (lacking d).
Qed.

(** X14 -- [validate_server_json] returns False in three cases only, and in
    each it prints one line that says why and nothing after it: the file is
    not there; the file is not JSON; the file parses to an object, a list or
    a string in which one of the four required names is not found, and then
    the names not found are printed in the order [$schema], [name],
    [description], [version], separated by a comma and a space. No check
    that comes after the required fields makes it return False. *)
Theorem validation_rejects_iff out out' :
  validate_server_json H out = (Return false, out') ↔
  (server_json H = FileNotFoundError ∧ out' = out ++ ["❌ server.json not found"]) ∨
  (∃ e, server_json H = JSONDecodeError e ∧
        out' = out ++ ["❌ Invalid JSON in server.json: " +:+ e]) ∨
  (∃ server_data,
     server_json H = Loaded server_data ∧
     container server_data = true ∧ lacking server_data ≠ [] ∧
     out' = out ++ ["✅ server.json is valid JSON";
                    "❌ Missing required fields: "
                      +:+ String.concat ", " (lacking server_data)]).
Proof.
  unfold validate_server_json. destruct (server_json H) as [d|e| |e].
  - rewrite wbind_print. split.
    + intros Hf. right. right. exists d.
      destruct (run_checks_false d (out ++ ["✅ server.json is valid JSON"])) as [Hd Hl].
      { by rewrite Hf. }
      rewrite run_checks_lacking in Hf by done. injection Hf as <-.
      by rewrite <- app_assoc.
    + intros [[[=] _] | [(? & [=] & _) | (? & [= <-] & Hd & Hl & ->)]].
      rewrite run_checks_lacking by done. by rewrite <- app_assoc.
  - split.
    + intros [= <-]. right. left. by exists e.
    + by intros [[[=] _] | [(? & [= <-] & ->) | (? & [=] & _)]].
  - split.
    + intros [= <-]. by left.
    + by intros [[_ ->] | [(? & [=] & _) | (? & [=] & _)]].
  - split; [done |].
    by intros [[[=] _] | [(? & [=] & _) | (? & [=] & _)]].
Qed.

(** X15 -- When server.json holds a number, a boolean or null, the script
    prints that the file is valid JSON and then the test [field not in
    server_data] of line 27 raises TypeError: nothing catches it, and
    nothing more is printed. *)
Theorem scalar_document_raises d out :
  server_json H = Loaded d → container d = false →
  validate_server_json H out = (Raise "TypeError", out ++ ["✅ server.json is valid JSON"]).
Proof. intros Hj Hd. unfold validate_server_json. rewrite Hj. by destruct d. Qed.

(** X16 -- When server.json holds a list or a string in which each of the
    four required names is found (as an item of the list, as a part of the
    string), the script prints that all required fields are present, and
    then [server_data.get] of line 36 raises AttributeError. *)
Theorem sequence_document_raises d out :
  server_json H = Loaded d → container d = true → (∀ members, d ≠ JObject members) →
  lacking d = [] →
  validate_server_json H out =
  (Raise "AttributeError",
   out ++ ["✅ server.json is valid JSON"; "✅ All required fields present"]).
Proof.
  intros Hj Hd Hno Hl. unfold validate_server_json. rewrite Hj, wbind_print.
  unfold run_checks. rewrite (missing_container _ _ Hd). fold (lacking d).
  rewrite Hl, wbind_Return, wbind_print, <- app_assoc.
  destruct d as [| | | |s|items|members]; try done. by destruct (Hno members).
Qed.


End ServerJsonFacts.

Section ServerJsonExamples.
Import ServerJson.

Lemma scalar_document_raises_witness :
  container (JInt 3) = false ∧
  validate_server_json (mkHost (Loaded (JInt 3)) (λ _, "[]")) []
  = (Raise "TypeError", ["✅ server.json is valid JSON"]).
Proof.
  split; [reflexivity |].
  by apply (scalar_document_raises (mkHost (Loaded (JInt 3)) (λ _, "[]")) (JInt 3) []).
Defined.

Lemma sequence_document_raises_witness :
  lacking (JString "$schema, name, description, version") = [] ∧
  validate_server_json
    (mkHost (Loaded (JString "$schema, name, description, version")) (λ _, "[]")) []
  = (Raise "AttributeError",
     ["✅ server.json is valid JSON"; "✅ All required fields present"]).
Proof.
  split; [by vm_compute |].
  by apply (sequence_document_raises
              (mkHost (Loaded (JString "$schema, name, description, version")) (λ _, "[]"))
              (JString "$schema, name, description, version") []).
Defined.

Lemma occurs_cons needle a s :
  occurs needle (String a s) = false →
  String.prefix needle (String a s) = false ∧ occurs needle s = false.
Proof. cbn [occurs]. by intros [? ?]%orb_false_elim. Qed.

Lemma split_first_app sep s t :
  occurs (String sep "") s = false →
  split_first sep (s +:+ t) = s +:+ split_first sep t.
Proof.
  induction s as [|a s IH]; [done |]. intros [Hp Hs]%occurs_cons.
  change (String a s +:+ t) with (String a (s +:+ t)). cbn [split_first].
  rewrite (IH Hs). cbn [String.prefix] in Hp.
  destruct (Ascii.eqb_spec a sep) as [->|]; [| done].
  destruct (ascii_dec sep sep); [by destruct s | done].
Qed.

Lemma replace_from_absent old new s :
  occurs old s = false → replace_from old new 0 s = s.
Proof.
  induction s as [|a s IH]; [done |]. intros [Hp Hs]%occurs_cons.
  cbn [replace_from]. by rewrite Hp, (IH Hs).
Qed.

Lemma replace_from_skip old new p s :
  replace_from old new (String.length p) (p +:+ s) = replace_from old new 0 s.
Proof.
  induction p as [|a p IH]; [by destruct s |].
  change (String a p +:+ s) with (String a (p +:+ s)). by cbn [replace_from String.length].
Qed.

Lemma replace_from_head old new s :
  old ≠ "" → replace_from old new 0 (old +:+ s) = new +:+ replace_from old new 0 s.
Proof.
  destruct old as [|a old]; [done |]. intros _.
  change (String a old +:+ s) with (String a (old +:+ s)). cbn [replace_from].
  change (String a (old +:+ s)) with (String a old +:+ s). rewrite prefix_append.
  cbn [String.length]. by rewrite Nat.sub_1_r, Nat.pred_succ, replace_from_skip.
Qed.

(** X18 -- Line 40: for a name [io.github.<user>/<rest>] the name printed
    after the namespace check is [<user>], when [<user>] holds no [/] and no
    [io.github.] of its own; what follows the first [/] plays no part. *)
Theorem username_of_namespaced_name user rest :
  occurs "/" user = false → occurs "io.github." user = false →
  username ("io.github." +:+ user +:+ "/" +:+ rest) = user.
Proof.
  intros Hslash Hns. unfold username.
  rewrite (split_first_app "/" "io.github.") by reflexivity.
  rewrite (split_first_app "/" user) by done.
  change (split_first "/" ("/" +:+ rest)) with "". rewrite append_empty_r.
  unfold replace. rewrite replace_from_head by done.
  change ("" +:+ ?s) with s. by apply replace_from_absent.
Qed.

Lemma username_of_namespaced_name_witness :
  occurs "/" "alice" = false ∧ occurs "io.github." "alice" = false ∧
  username ("io.github." +:+ "alice" +:+ "/" +:+ "vector-memory") = "alice".
Proof.
  split_and!; [reflexivity | reflexivity |].
  by apply (username_of_namespaced_name "alice" "vector-memory").
Defined.

End ServerJsonExamples.
